(** * tsql: a toy in-memory SQL engine

    A shallow embedding of [tsql.py]: the WHERE-clause compiler
    [ToySQLParser._parse_where] with the regular expression it matches,
    and the engine [ToyDB] with its four statement executors and
    [create_table], then the statement parser [ToySQLParser.parse]
    with its four patterns and [ToyDB.execute] on query text.

    Conventions of the embedding.
    - Text is [string] over 7-bit ASCII ([Text.is_ascii], Python's
      [str.isascii()]).  The character classes, [str.strip()],
      [str.upper()] and the case-insensitive literals are those of
      Python on such text.  Python's classes are wider on other text
      (['é'] is a word character, U+00A0 a blank, U+017F matches [S]
      under [re.IGNORECASE]), so a statement about how arbitrary text
      is classified, stripped or matched assumes [Text.is_ascii] of
      that text.
    - A Python [dict] is a [gmap]; a [list] is a [list].
    - Every error the program raises is a constructor of [Error]; an
      executor returns its outcome together with the table store it
      leaves behind, so that the store after a failure is visible. *)

From Stdlib Require Import Ascii String.
From stdpp Require Import gmap strings list fin_maps sorting.

Local Open Scope string_scope.
Local Open Scope list_scope.
Local Open Scope stdpp_scope.

(** ** Text helpers *)

Module Text.

(** [\w] of Python's [re] on ASCII text: letters, digits and
    underscore. *)
Definition is_word (c : ascii) : bool :=
  let n := nat_of_ascii c in
  (((48 <=? n) && (n <=? 57)) || ((65 <=? n) && (n <=? 90))
   || ((97 <=? n) && (n <=? 122)) || (n =? 95))%nat.

(** [\s] of Python's [re] and the characters removed by [str.strip()]
    on ASCII text: TAB, LF, VT, FF, CR, the separators FS, GS, RS, US
    and the blank. *)
Definition is_space (c : ascii) : bool :=
  let n := nat_of_ascii c in
  (((9 <=? n) && (n <=? 13)) || ((28 <=? n) && (n <=? 32)))%nat.

(** [.] without [re.DOTALL]: anything but a line feed. *)
Definition is_dot (c : ascii) : bool := negb (nat_of_ascii c =? 10)%nat.

Fixpoint drop_while (cls : ascii → bool) (s : string) : string :=
  match s with
  | String c s' => if cls c then drop_while cls s' else s
  | EmptyString => EmptyString
  end.

(** [s.startswith(p)], returning what follows [p]. *)
Fixpoint strip_prefix (p s : string) : option string :=
  match p, s with
  | EmptyString, _ => Some s
  | String a p', String b s' =>
      if Ascii.eqb a b then strip_prefix p' s' else None
  | String _ _, EmptyString => None
  end.

(** [str.strip()] on ASCII text *)
Definition strip (s : string) : string :=
  String.rev (drop_while is_space (String.rev (drop_while is_space s))).

Definition head_is (cls : ascii → bool) (s : string) : bool :=
  match s with
  | String c _ => cls c
  | EmptyString => false
  end.

Fixpoint all (cls : ascii → bool) (s : string) : bool :=
  match s with
  | String c s' => cls c && all cls s'
  | EmptyString => true
  end.

(** [str.isascii()]: every character is a 7-bit code. *)
Definition is_ascii (s : string) : bool :=
  all (λ c, nat_of_ascii c <? 128)%nat s.

(** Does [s] start with one of the [literals]? *)
Definition starts_with_any (literals : list string) (s : string) : bool :=
  existsb (λ l, bool_decide (is_Some (strip_prefix l s))) literals.

End Text.

(** ** A backtracking matcher for the patterns of [tsql.py]

    Python's [re] explores alternatives in priority order and commits to
    the first complete match: a greedy repetition tries the longest
    run first and gives characters back one at a time, an alternation
    tries its branches from left to right.  The combinators below do
    exactly that, in continuation-passing style: the continuation is
    the rest of the pattern and receives the text consumed by the
    sub-pattern and the text that is left. *)

Module Re.

Section Combinators.
Context {A : Type}.

Definition orelse (x y : option A) : option A :=
  match x with
  | Some r => Some r
  | None => y
  end.

(** [cls*], greedy. *)
Fixpoint star (cls : ascii → bool) (s : string)
    (k : string → string → option A) : option A :=
  match s with
  | String c s' =>
      if cls c
      then orelse (star cls s' (λ m r, k (String c m) r)) (k EmptyString s)
      else k EmptyString s
  | EmptyString => k EmptyString s
  end.

(** [cls+], greedy. *)
Definition plus (cls : ascii → bool) (s : string)
    (k : string → string → option A) : option A :=
  match s with
  | String c s' =>
      if cls c then star cls s' (λ m r, k (String c m) r) else None
  | EmptyString => None
  end.

(** [l1|l2|...] over literal branches, tried from left to right. *)
Fixpoint alt (branches : list string) (s : string)
    (k : string → string → option A) : option A :=
  match branches with
  | [] => None
  | l :: branches' =>
      orelse (match Text.strip_prefix l s with
              | Some r => k l r
              | None => None
              end)
             (alt branches' s k)
  end.

End Combinators.

(** The suffixes of [s] at which the continuation of a repetition of
    [cls] over [s] can be entered: [s] itself and, as long as
    characters of the class are consumed, what follows them. *)
Inductive reach (cls : ascii → bool) : string → string → Prop :=
  | reach_here s : reach cls s s
  | reach_next c s r :
      cls c = true → reach cls s r → reach cls (String c s) r.

End Re.

(** ** The predicate compiler: [ToySQLParser._parse_where] *)

Inductive Error : Type :=
  | UnsupportedCondition (condition : string)
      (** [ValueError("Unsupported WHERE condition: ...")] *)
  | UnsupportedOperator (operator : string)
      (** [ValueError("Unsupported operator in WHERE condition: ...")] *)
  | TableNotFound (table : string)
      (** [ValueError("Table '...' does not exist")] *)
  | TableExists (name : string)
      (** [ValueError("Table '...' already exists")] *)
  | ColumnValueMismatch
      (** the [ValueError] of [zip(..., strict=True)] *)
  | RowKeyError (column : string)
      (** the [KeyError] of [row[column]] *).

Global Instance Error_eq_dec : EqDecision Error.
Proof. solve_decision. Defined.

(** The six lambdas of [_parse_where], named by the comparison in their
    body. *)
Inductive Operator : Type := OpEq | OpNe | OpLt | OpLe | OpGt | OpGe.

Global Instance Operator_eq_dec : EqDecision Operator.
Proof. solve_decision. Defined.

(** A compiled predicate is the closure [lambda row: row[left] <op> right]:
    which of the six bodies it has, and the two captured variables. *)
Record Predicate : Type := mkPredicate {
  left : string;
  operator : Operator;
  right : string
}.

Global Instance Predicate_eq_dec : EqDecision Predicate.
Proof. solve_decision. Defined.

(** The branches of the [operator] group, in the order of the pattern. *)
Definition operator_branches : list string :=
  ["="; "!="; "<"; "<="; ">"; ">="].

(** [condition_regex.match(condition)] for the pattern
    [(?P<left>\w+)\s*(?P<operator>=|!=|<|<=|>|>=)\s*(?P<right>.+)]
    (written with [re.VERBOSE], so the blanks of the source are not part
    of it).  [match] anchors at the start only.  The result is the
    triple of the groups [left], [operator] and [right]. *)
Definition condition_regex (condition : string)
    : option (string * string * string) :=
  Re.plus Text.is_word condition (λ left s1,
  Re.star Text.is_space s1 (λ _ s2,
  Re.alt operator_branches s2 (λ operator s3,
  Re.star Text.is_space s3 (λ _ s4,
  Re.plus Text.is_dot s4 (λ right _,
  Some (left, operator, right)))))).

(** The part of the pattern after the operator group,
    [\s*(?P<right>.+)], once [left] and [operator] are known. *)
Definition condition_regex_tail (left operator s3 : string)
    : option (string * string * string) :=
  Re.star Text.is_space s3 (λ _ s4,
  Re.plus Text.is_dot s4 (λ right _,
  Some (left, operator, right))).

(** The [if operator == ... elif ...] chain; [None] is the final [else]. *)
Definition select_lambda (operator : string) : option Operator :=
  if String.eqb operator "=" then Some OpEq
  else if String.eqb operator "!=" then Some OpNe
  else if String.eqb operator "<" then Some OpLt
  else if String.eqb operator "<=" then Some OpLe
  else if String.eqb operator ">" then Some OpGt
  else if String.eqb operator ">=" then Some OpGe
  else None.

Definition _parse_where (condition : string) : Error + Predicate :=
  match condition_regex condition with
  | None => inl (UnsupportedCondition condition)
  | Some (left, operator, right) =>
      let right := Text.strip right in
      match select_lambda operator with
      | Some op => inr (mkPredicate left op right)
      | None => inl (UnsupportedOperator operator)
      end
  end.

(** ** Rows, tables and compiled predicates at run time *)

Abbreviation Row := (gmap string string) (only parsing).
Abbreviation Table := (list (gmap string string)) (only parsing).
Abbreviation Tables := (gmap string (list (gmap string string))) (only parsing).

(** Computations that may raise: [Error + A]. *)
Global Instance result_ret : MRet (sum Error) := λ A x, inr x.
Global Instance result_bind : MBind (sum Error) := λ A B k r,
  match r with
  | inl e => inl e
  | inr x => k x
  end.

(** Python compares [str] values by code point, lexicographically. *)
Definition compare_text (op : Operator) (a b : string) : bool :=
  match op with
  | OpEq => String.eqb a b
  | OpNe => negb (String.eqb a b)
  | OpLt => String.ltb a b
  | OpLe => String.leb a b
  | OpGt => String.ltb b a
  | OpGe => String.leb b a
  end.

(** [row[column]] *)
Definition getitem (row : Row) (column : string) : Error + string :=
  match row !! column with
  | Some v => inr v
  | None => inl (RowKeyError column)
  end.

(** Calling the closure: [(lambda row: row[left] <op> right)(row)]. *)
Definition call (p : Predicate) (row : Row) : Error + bool :=
  v ← getitem row (left p);
  mret (compare_text (operator p) v (right p)).

(** ** Statements: the dataclasses of [tsql.py]

    The [operation] tag is the constructor of [ParsedSQL]; the raw
    [where] text is never read by the engine and is left out. *)

Module SelectSQL.
Record t : Type := mk {
  columns : list string;
  table : string;
  where_lambda : option Predicate;
  orderby : option string
}.
End SelectSQL.

Module InsertSQL.
Record t : Type := mk {
  table : string;
  columns : list string;
  values : list string
}.
End InsertSQL.

Module UpdateSQL.
Record t : Type := mk {
  table : string;
  assignments : gmap string string;
  where_lambda : option Predicate
}.
End UpdateSQL.

Module DeleteSQL.
Record t : Type := mk {
  table : string;
  where_lambda : option Predicate
}.
End DeleteSQL.

Inductive ParsedSQL : Type :=
  | Select (query : SelectSQL.t)
  | Insert (query : InsertSQL.t)
  | Update (query : UpdateSQL.t)
  | Delete (query : DeleteSQL.t).

(** ** Python built-ins used by the engine *)

Module Py.

(** [list(filter(f, rows))]: [f] is called on the rows in order and
    the first exception escapes. *)
Fixpoint filter (f : Row → Error + bool) (rows : Table) : Error + Table :=
  match rows with
  | [] => inr []
  | row :: rows' =>
      b ← f row;
      rest ← filter f rows';
      mret (if b : bool then row :: rest else rest)
  end.

(** [[f(x) for x in xs]] *)
Fixpoint comprehension {A B} (f : A → Error + B) (xs : list A)
    : Error + list B :=
  match xs with
  | [] => inr []
  | x :: xs' =>
      y ← f x;
      rest ← comprehension f xs';
      mret (y :: rest)
  end.

(** [zip(xs, ys, strict=True)], consumed to the end. *)
Fixpoint zip_strict {A B} (xs : list A) (ys : list B)
    : Error + list (A * B) :=
  match xs, ys with
  | [], [] => inr []
  | x :: xs', y :: ys' =>
      rest ← zip_strict xs' ys';
      mret ((x, y) :: rest)
  | _, _ => inl ColumnValueMismatch
  end.

(** [d[k] = v] *)
Definition put (d : Row) (kv : string * string) : Row :=
  <[kv.1 := kv.2]> d.

(** [{k: v for k, v in pairs}]: a later pair overwrites an earlier one
    with the same key. *)
Definition dict (pairs : list (string * string)) : Row :=
  foldl put ∅ pairs.

(** One step of a stable insertion: [x] preceded every element of [l]
    in the original order, so it goes before the first element that is
    not smaller.  Only [<] is used, as in [list.sort]. *)
Fixpoint insert_by_key (x : string * gmap string string)
    (l : list (string * gmap string string))
    : list (string * gmap string string) :=
  match l with
  | [] => [x]
  | y :: l' =>
      if String.ltb y.1 x.1 then y :: insert_by_key x l' else x :: y :: l'
  end.

Definition sort_decorated (l : list (string * gmap string string))
    : list (string * gmap string string) :=
  foldr insert_by_key [] l.

(** [rows.sort(key=key)]: the keys are computed first, for every row in
    order (an exception leaves the list as it was); the rows are then
    ordered by ascending key, rows with equal keys keeping their
    order.  [list.sort] is specified as a stable sort; a stable
    insertion sort computes the same list. *)
Definition sort (key : Row → Error + string) (rows : Table) : Error + Table :=
  keys ← comprehension key rows;
  mret (sort_decorated (zip keys rows)).*2.

(** Truthiness of [self.tables.get(name)]: [None] and [[]] are false. *)
Definition truthy_list {A} (l : option (list A)) : bool :=
  match l with
  | Some (_ :: _) => true
  | _ => false
  end.

(** Truthiness of an optional [str]: [None] and [''] are false. *)
Definition truthy_str (s : option string) : bool :=
  match s with
  | Some (String _ _) => true
  | _ => false
  end.

End Py.

(** ** The engine monad: the table store and exceptions *)

Module Exec.

Definition t (A : Type) : Type := Tables → (Error + A) * Tables.

Definition ret {A} (x : A) : t A := λ tables, (inr x, tables).

Definition raise {A} (e : Error) : t A := λ tables, (inl e, tables).

Definition bind {A B} (k : A → t B) (c : t A) : t B := λ tables,
  match c tables with
  | (inl e, tables') => (inl e, tables')
  | (inr x, tables') => k x tables'
  end.

(** A computation that does not touch the store. *)
Definition lift {A} (r : Error + A) : t A := λ tables, (r, tables).

(** [self.tables.get(name)] *)
Definition tables_get (name : string) : t (option Table) :=
  λ tables, (inr (tables !! name), tables).

(** [self.tables[name] = rows] *)
Definition tables_set (name : string) (rows : Table) : t unit :=
  λ tables, (inr tt, <[name := rows]> tables).

End Exec.

Global Instance exec_ret : MRet Exec.t := @Exec.ret.
Global Instance exec_bind : MBind Exec.t := @Exec.bind.

(** A list object held in a local variable.  [self.tables.get(name)]
    hands out the very list that the store holds, so a variable bound
    to it is an alias: mutating it mutates the store.  A list built by
    [list(...)] or by a comprehension is a fresh object. *)
Inductive ListRef : Type :=
  | Stored (name : string)
  | Fresh (rows : Table).

Module Ref.

(** The rows of the list object at present. *)
Definition rows_of (r : ListRef) (tables : Tables) : Table :=
  match r with
  | Stored name => default [] (tables !! name)
  | Fresh rows => rows
  end.

Definition read (r : ListRef) : Exec.t Table :=
  λ tables, (inr (rows_of r tables), tables).

(** An in-place update of the list object. *)
Definition write (r : ListRef) (rows : Table) : Exec.t ListRef :=
  match r with
  | Stored name => _ ← Exec.tables_set name rows; mret (Stored name)
  | Fresh _ => mret (Fresh rows)
  end.

End Ref.

(** ** The engine: [ToyDB] *)

Module ToyDB.

(** [{col: row[col] for col in columns}] *)
Definition project (columns : list string) (row : Row) : Error + Row :=
  pairs ← Py.comprehension
             (λ col, v ← getitem row col; mret (col, v)) columns;
  mret (Py.dict pairs).

Definition _execute_select (query : SelectSQL.t) : Exec.t Table :=
  table ← Exec.tables_get (SelectSQL.table query);
  if negb (Py.truthy_list table)
  then Exec.raise (TableNotFound (SelectSQL.table query))
  else
    (* result = table *)
    let result := Stored (SelectSQL.table query) in
    (* if query.where_lambda: result = list(filter(...)) *)
    result ←
      match SelectSQL.where_lambda query with
      | Some p =>
          rows ← Ref.read result;
          kept ← Exec.lift (Py.filter (call p) rows);
          mret (Fresh kept)
      | None => mret result
      end;
    (* if query.orderby: result.sort(key=...) *)
    result ←
      (if Py.truthy_str (SelectSQL.orderby query)
       then
         rows ← Ref.read result;
         sorted ← Exec.lift
           (Py.sort (λ row, getitem row (default EmptyString (SelectSQL.orderby query)))
                    rows);
         Ref.write result sorted
       else mret result);
    (* if query.columns != ["*"]: result = [{...} for row in result] *)
    result ←
      (if decide (SelectSQL.columns query ≠ ["*"])
       then
         rows ← Ref.read result;
         projected ← Exec.lift
           (Py.comprehension (project (SelectSQL.columns query)) rows);
         mret (Fresh projected)
       else mret result);
    Ref.read result.

Definition _execute_insert (query : InsertSQL.t) : Exec.t unit :=
  table ← Exec.tables_get (InsertSQL.table query);
  match table with
  | None => Exec.raise (TableNotFound (InsertSQL.table query))
  | Some rows =>
      pairs ← Exec.lift
        (Py.zip_strict (InsertSQL.columns query) (InsertSQL.values query));
      (* table.append(...): the list held by the store grows *)
      Exec.tables_set (InsertSQL.table query) (rows ++ [Py.dict pairs])
  end.

(** [for col, val in assignments.items(): row[col] = val].  The keys of
    a dictionary are distinct, so the order of the items does not show
    in the row that results. *)
Definition assign (assignments : gmap string string) (row : Row) : Row :=
  map_fold (λ col val row, <[col := val]> row) row assignments.

(** [query.where_lambda and not query.where_lambda(row)] *)
Definition update_skips (where_lambda : option Predicate) (row : Row)
    : Error + bool :=
  match where_lambda with
  | None => inr false
  | Some p => b ← call p row; mret (negb b)
  end.

(** The [for row in table] loop of [_execute_update].  The rows are
    dictionaries mutated in place: when the predicate raises at some
    row, the rows before it have already been assigned to.  The result
    is the exception, if any, and the rows as the loop leaves them. *)
Fixpoint update_loop (where_lambda : option Predicate)
    (assignments : gmap string string) (rows : Table)
    : option Error * Table :=
  match rows with
  | [] => (None, [])
  | row :: rows' =>
      match update_skips where_lambda row with
      | inl e => (Some e, row :: rows')
      | inr skip =>
          let row' := if skip : bool then row else assign assignments row in
          let '(e, rest) := update_loop where_lambda assignments rows' in
          (e, row' :: rest)
      end
  end.

Definition _execute_update (query : UpdateSQL.t) : Exec.t unit :=
  table ← Exec.tables_get (UpdateSQL.table query);
  if negb (Py.truthy_list table)
  then Exec.raise (TableNotFound (UpdateSQL.table query))
  else
    let '(e, rows) :=
      update_loop (UpdateSQL.where_lambda query)
                  (UpdateSQL.assignments query) (default [] table) in
    _ ← Exec.tables_set (UpdateSQL.table query) rows;
    match e with
    | Some e => Exec.raise e
    | None => mret tt
    end.

(** [not (query.where_lambda and query.where_lambda(row))]: the
    condition under which the comprehension of [_execute_delete] keeps
    a row.  Without a predicate the conjunction is [None], and
    [not None] is [True]. *)
Definition delete_keeps (where_lambda : option Predicate) (row : Row)
    : Error + bool :=
  match where_lambda with
  | None => inr (negb false)
  | Some p => b ← call p row; mret (negb b)
  end.

Definition _execute_delete (query : DeleteSQL.t) : Exec.t unit :=
  table ← Exec.tables_get (DeleteSQL.table query);
  if negb (Py.truthy_list table)
  then Exec.raise (TableNotFound (DeleteSQL.table query))
  else
    kept ← Exec.lift
      (Py.filter (delete_keeps (DeleteSQL.where_lambda query))
                 (default [] table));
    Exec.tables_set (DeleteSQL.table query) kept.

Definition create_table (name : string) (columns : list string)
    : Exec.t unit :=
  table ← Exec.tables_get name;
  match table with
  | Some _ => Exec.raise (TableExists name)
  | None => Exec.tables_set name []
  end.

(** The [isinstance] chain of [execute], after parsing. *)
Definition execute (parsed : ParsedSQL) : Exec.t (option Table) :=
  match parsed with
  | Select query => rows ← _execute_select query; mret (Some rows)
  | Insert query => _ ← _execute_insert query; mret None
  | Update query => _ ← _execute_update query; mret None
  | Delete query => _ ← _execute_delete query; mret None
  end.

End ToyDB.

(** ** Notions used in the statements *)

(** A row decorated with its sort key. *)
Abbreviation keyed := (string * gmap string string)%type (only parsing).

(** Decorated rows in key order. *)
Definition key_le (x y : keyed) : Prop := String.le x.1 y.1.

(** The comparison of two texts that an operator accepts. *)
Definition holds (op : Operator) (c : comparison) : bool :=
  match op, c with
  | OpEq, Eq | OpNe, (Lt | Gt) => true
  | OpLt, Lt | OpLe, (Lt | Eq) => true
  | OpGt, Gt | OpGe, (Gt | Eq) => true
  | _, _ => false
  end.

(** The predicate of a statement answers [b] on [row]; a statement
    without WHERE clause has no predicate and takes every row. *)
Definition satisfies (where_lambda : option Predicate) (row : Row) (b : bool)
    : Prop :=
  match where_lambda with
  | None => b = true
  | Some p => call p row = inr b
  end.

(** [row'] is [row] after the assignments: an assigned column holds its
    literal, whether or not the row had the column; any other column is
    as in [row]. *)
Definition assigned (assignments : gmap string string) (row row' : Row)
    : Prop :=
  (∀ col val, assignments !! col = Some val → row' !! col = Some val)
  ∧ (∀ col, assignments !! col = None → row' !! col = row !! col).

(** The rows that pass the WHERE filter of a Select, in table order. *)
Definition passing (where_lambda : option Predicate) (rows kept : Table)
    : Prop :=
  match where_lambda with
  | None => kept = rows
  | Some p => Py.filter (call p) rows = inr kept
  end.

(** The rows a Select returns for the rows it has filtered and sorted. *)
Definition returned (columns : list string) (rows result : Table) : Prop :=
  if decide (columns = ["*"]) then result = rows
  else Py.comprehension (ToyDB.project columns) rows = inr result.

Ltac exec_unfold :=
  unfold mbind, mret, exec_bind, exec_ret, Exec.bind, Exec.ret, Exec.lift,
    Exec.raise, Exec.tables_get, Exec.tables_set, Ref.read, Ref.write.

(** ** The statement grammars: [ToySQLParser.parse] *)

(** What [parse] and the text-level [execute] can raise besides the
    errors of the predicate compiler and of the engine. *)
Inductive Exception : Type :=
  | NoKnownOperation
      (** [ValueError("Query did not match any known SQL operation")] *)
  | UnpackMismatch
      (** the [ValueError] of [for k, v in ...] when [split("=")] does not
          give two items *)
  | Raised (e : Error).

Global Instance Exception_eq_dec : EqDecision Exception.
Proof. solve_decision. Defined.

Global Instance parsing_ret : MRet (sum Exception) := λ A x, inr x.
Global Instance parsing_bind : MBind (sum Exception) := λ A B k r,
  match r with
  | inl e => inl e
  | inr x => k x
  end.

Module PyStr.

(** [c.upper()] and [c.lower()] on ASCII. *)
Definition upper_char (c : ascii) : ascii :=
  let n := nat_of_ascii c in
  if ((97 <=? n) && (n <=? 122))%nat then ascii_of_nat (n - 32) else c.

Definition lower_char (c : ascii) : ascii :=
  let n := nat_of_ascii c in
  if ((65 <=? n) && (n <=? 90))%nat then ascii_of_nat (n + 32) else c.

(** [s.upper()] *)
Fixpoint upper (s : string) : string :=
  match s with
  | String c s' => String (upper_char c) (upper s')
  | EmptyString => EmptyString
  end.

(** [s.startswith(p)] *)
Definition startswith (s p : string) : bool := String.prefix p s.

(** [s.split(sep)] for a one-character separator: the pieces between the
    separators, empty pieces included; never the empty list. *)
Fixpoint split (sep : ascii) (s : string) : list string :=
  match s with
  | EmptyString => [EmptyString]
  | String c s' =>
      if Ascii.eqb c sep then EmptyString :: split sep s'
      else match split sep s' with
           | piece :: pieces => String c piece :: pieces
           | [] => [String c EmptyString]
           end
  end.

End PyStr.

(** More pattern constructs, in the style of [Re]: a continuation that
    needs no captured text takes the text that is left only. *)
Module ReMore.

Section Combinators.
Context {A : Type}.

(** A literal under [re.IGNORECASE]. *)
Fixpoint literal_ci (l s : string) (k : string → option A) : option A :=
  match l, s with
  | EmptyString, _ => k s
  | String a l', String b s' =>
      if Ascii.eqb (PyStr.lower_char a) (PyStr.lower_char b)
      then literal_ci l' s' k
      else None
  | String _ _, EmptyString => None
  end.

(** One literal character, such as [\(]. *)
Definition char (c : ascii) (s : string) (k : string → option A) : option A :=
  match s with
  | String b s' => if Ascii.eqb c b then k s' else None
  | EmptyString => None
  end.

(** [c?], greedy. *)
Definition opt_char (c : ascii) (s : string) (k : string → option A)
    : option A :=
  Re.orelse (char c s k) (k s).

(** [\s*] and [\s+] *)
Definition spaces (s : string) (k : string → option A) : option A :=
  Re.star Text.is_space s (λ _ r, k r).

Definition spaces1 (s : string) (k : string → option A) : option A :=
  Re.plus Text.is_space s (λ _ r, k r).

(** [cls*?]: the shortest run first, one more character on failure. *)
Fixpoint lazy_star (cls : ascii → bool) (s : string)
    (k : string → string → option A) : option A :=
  match s with
  | String c s' =>
      Re.orelse (k EmptyString s)
        (if cls c then lazy_star cls s' (λ m r, k (String c m) r) else None)
  | EmptyString => k EmptyString s
  end.

(** [cls+?] *)
Definition lazy_plus (cls : ascii → bool) (s : string)
    (k : string → string → option A) : option A :=
  match s with
  | String c s' =>
      if cls c then lazy_star cls s' (λ m r, k (String c m) r) else None
  | EmptyString => None
  end.

(** [(?:g)?] around one capturing group, greedy: the group is tried
    first and is unset when it is skipped. *)
Definition opt_group
    (g : string → (string → string → option A) → option A) (s : string)
    (k : option string → string → option A) : option A :=
  Re.orelse (g s (λ m r, k (Some m) r)) (k None s).

(** [$] without [re.MULTILINE]: at the end of the text, or before a line
    feed that ends it. *)
Definition eos (s : string) (x : option A) : option A :=
  match s with
  | EmptyString => x
  | String c EmptyString => if (nat_of_ascii c =? 10)%nat then x else None
  | _ => None
  end.

(** [\s*;?\s*$], the end of each of the four patterns. *)
Definition statement_end (s : string) (x : option A) : option A :=
  spaces s (λ s, opt_char ";" s (λ s, spaces s (λ s, eos s x))).

End Combinators.

End ReMore.

Module ToySQLParser.
Import ReMore.

(** [[\w\*,\s]] and [[\w,\s]] *)
Definition is_select_columns (c : ascii) : bool :=
  Text.is_word c || Ascii.eqb c "*" || Ascii.eqb c "," || Text.is_space c.

Definition is_insert_columns (c : ascii) : bool :=
  Text.is_word c || Ascii.eqb c "," || Text.is_space c.

(** [(?:\s+WHERE\s+(?P<where>.+?))?], as the group inside. *)
Definition where_group {A} (s : string) (k : string → string → option A)
    : option A :=
  spaces1 s (λ s, literal_ci "WHERE" s (λ s, spaces1 s (λ s,
  lazy_plus Text.is_dot s k))).

(** [select_regex.match(query)]:
    [^\s*SELECT\s+(?P<columns>[\w\*,\s]+)\s+FROM\s+(?P<table>\w+)
     (?:\s+WHERE\s+(?P<where>.+?))?(?:\s+ORDER\s+BY\s+(?P<orderby>\w+))?
     \s*;?\s*$], groups [columns], [table], [where], [orderby]. *)
Definition select_regex (query : string)
    : option (string * string * option string * option string) :=
  spaces query (λ s, literal_ci "SELECT" s (λ s, spaces1 s (λ s,
  Re.plus is_select_columns s (λ columns s,
  spaces1 s (λ s, literal_ci "FROM" s (λ s, spaces1 s (λ s,
  Re.plus Text.is_word s (λ table s,
  opt_group where_group s (λ where_ s,
  opt_group
    (λ s k, spaces1 s (λ s, literal_ci "ORDER" s (λ s, spaces1 s (λ s,
            literal_ci "BY" s (λ s, spaces1 s (λ s,
            Re.plus Text.is_word s k))))))
    s (λ orderby s,
  statement_end s (Some (columns, table, where_, orderby)))))))))))).

(** [insert_regex.match(query)]:
    [^\s*INSERT\s+INTO\s+(?P<table>\w+)\s+\((?P<columns>[\w,\s]+)\)\s+
     VALUES\s+\((?P<values>.+?)\)\s*;?\s*$], groups [table], [columns],
    [values]. *)
Definition insert_regex (query : string)
    : option (string * string * string) :=
  spaces query (λ s, literal_ci "INSERT" s (λ s, spaces1 s (λ s,
  literal_ci "INTO" s (λ s, spaces1 s (λ s,
  Re.plus Text.is_word s (λ table s,
  spaces1 s (λ s, char "(" s (λ s,
  Re.plus is_insert_columns s (λ columns s,
  char ")" s (λ s, spaces1 s (λ s, literal_ci "VALUES" s (λ s,
  spaces1 s (λ s, char "(" s (λ s,
  lazy_plus Text.is_dot s (λ values s,
  char ")" s (λ s,
  statement_end s (Some (table, columns, values)))))))))))))))))).

(** [update_regex.match(query)]:
    [^\s*UPDATE\s+(?P<table>\w+)\s+SET\s+(?P<assignments>.+?)
     (?:\s+WHERE\s+(?P<where>.+?))?\s*;?\s*$], groups [table],
    [assignments], [where]. *)
Definition update_regex (query : string)
    : option (string * string * option string) :=
  spaces query (λ s, literal_ci "UPDATE" s (λ s, spaces1 s (λ s,
  Re.plus Text.is_word s (λ table s,
  spaces1 s (λ s, literal_ci "SET" s (λ s, spaces1 s (λ s,
  lazy_plus Text.is_dot s (λ assignments s,
  opt_group where_group s (λ where_ s,
  statement_end s (Some (table, assignments, where_))))))))))).

(** [delete_regex.match(query)]:
    [^\s*DELETE\s+FROM\s+(?P<table>\w+)(?:\s+WHERE\s+(?P<where>.+?))?
     \s*;?\s*$], groups [table], [where]. *)
Definition delete_regex (query : string) : option (string * option string) :=
  spaces query (λ s, literal_ci "DELETE" s (λ s, spaces1 s (λ s,
  literal_ci "FROM" s (λ s, spaces1 s (λ s,
  Re.plus Text.is_word s (λ table s,
  opt_group where_group s (λ where_ s,
  statement_end s (Some (table, where_))))))))).

(** [self._parse_where(where) if where else None] *)
Definition where_lambda_of (where_ : option string)
    : Exception + option Predicate :=
  if Py.truthy_str where_
  then match _parse_where (default EmptyString where_) with
       | inl e => inl (Raised e)
       | inr p => inr (Some p)
       end
  else inr None.

(** [[piece.strip() for piece in text.split(",")]] *)
Definition comma_list (text : string) : list string :=
  Text.strip <$> PyStr.split "," text.

(** [k, v = assignment.split("=")], stripped. *)
Definition assignment_pair (assignment : string)
    : Exception + (string * string) :=
  match PyStr.split "=" assignment with
  | [k; v] => inr (Text.strip k, Text.strip v)
  | _ => inl UnpackMismatch
  end.

(** The dictionary display of [parse] for UPDATE. *)
Fixpoint assignment_pairs (assignments : list string)
    : Exception + list (string * string) :=
  match assignments with
  | [] => inr []
  | a :: assignments' =>
      kv ← assignment_pair a;
      rest ← assignment_pairs assignments';
      mret (kv :: rest)
  end.

Definition parse (query : string) : Exception + ParsedSQL :=
  let query := Text.strip query in
  if PyStr.startswith (PyStr.upper query) "SELECT" then
    match select_regex query with
    | Some (columns, table, where_, orderby) =>
        where_lambda ← where_lambda_of where_;
        mret (Select (SelectSQL.mk (comma_list columns) table
                                   where_lambda orderby))
    | None => inl NoKnownOperation
    end
  else if PyStr.startswith (PyStr.upper query) "INSERT" then
    match insert_regex query with
    | Some (table, columns, values) =>
        mret (Insert (InsertSQL.mk table (comma_list columns)
                                   (comma_list values)))
    | None => inl NoKnownOperation
    end
  else if PyStr.startswith (PyStr.upper query) "UPDATE" then
    match update_regex query with
    | Some (table, assignments, where_) =>
        pairs ← assignment_pairs (PyStr.split "," assignments);
        where_lambda ← where_lambda_of where_;
        mret (Update (UpdateSQL.mk table (Py.dict pairs) where_lambda))
    | None => inl NoKnownOperation
    end
  else if PyStr.startswith (PyStr.upper query) "DELETE" then
    match delete_regex query with
    | Some (table, where_) =>
        where_lambda ← where_lambda_of where_;
        mret (Delete (DeleteSQL.mk table where_lambda))
    | None => inl NoKnownOperation
    end
  else inl NoKnownOperation.

End ToySQLParser.

(** [ToyDB.execute] on the text of a query: parse, then dispatch. *)
Module ToyDBText.

Definition execute (query : string)
    : Tables → (Exception + option Table) * Tables :=
  λ tables,
    match ToySQLParser.parse query with
    | inl e => (inl e, tables)
    | inr parsed =>
        match ToyDB.execute parsed tables with
        | (inl e, tables') => (inl (Raised e), tables')
        | (inr result, tables') => (inr result, tables')
        end
    end.

(** A script: queries run one after the other until one raises. *)
Fixpoint run (queries : list string) (tables : Tables)
    : (Exception + list (option Table)) * Tables :=
  match queries with
  | [] => (inr [], tables)
  | query :: queries' =>
      match execute query tables with
      | (inl e, tables') => (inl e, tables')
      | (inr result, tables') =>
          match run queries' tables' with
          | (inl e, tables'') => (inl e, tables'')
          | (inr results, tables'') => (inr (result :: results), tables'')
          end
      end
  end.

End ToyDBText.

(** ** More notions used in the statements *)

(** The table a statement names. *)
Definition table_of (parsed : ParsedSQL) : string :=
  match parsed with
  | Select query => SelectSQL.table query
  | Insert query => InsertSQL.table query
  | Update query => UpdateSQL.table query
  | Delete query => DeleteSQL.table query
  end.

(** A non-empty run of word characters. *)
Definition is_identifier (s : string) : Prop :=
  s ≠ EmptyString ∧ Text.all Text.is_word s = true.

(** The store an executor leaves is the store it found, or that store
    with new rows under the name of a table it already had. *)
Definition rewrites_own_table (name : string)
    (tables tables' : gmap string (list (gmap string string))) : Prop :=
  tables' = tables
  ∨ ∃ rows, is_Some (tables !! name) ∧ tables' = <[name := rows]> tables.

(** The text of an operator in a WHERE clause. *)
Definition operator_text (op : Operator) : string :=
  match op with
  | OpEq => "="
  | OpNe => "!="
  | OpLt => "<"
  | OpLe => "<="
  | OpGt => ">"
  | OpGe => ">="
  end.

(** The predicate a statement filters with. *)
Definition where_lambda_in (parsed : ParsedSQL) : option Predicate :=
  match parsed with
  | Select query => SelectSQL.where_lambda query
  | Insert _ => None
  | Update query => UpdateSQL.where_lambda query
  | Delete query => DeleteSQL.where_lambda query
  end.

(** Is the last character of [s] in the class? *)
Fixpoint last_is (cls : ascii → bool) (s : string) : bool :=
  match s with
  | EmptyString => false
  | String c EmptyString => cls c
  | String _ s' => last_is cls s'
  end.

(** What may stand between a statement and the end of the text. *)
Definition is_space_or_semicolon (c : ascii) : bool :=
  Text.is_space c || Ascii.eqb c ";".

(** Expose the head of a text that starts with a literal. *)
Ltac push_append :=
  repeat match goal with
  | |- context [String ?c ?s +:+ ?t] =>
      change (String c s +:+ t) with (String c (s +:+ t))
  | |- context [EmptyString +:+ ?t] => change (EmptyString +:+ t) with t
  | H : context [String ?c ?s +:+ ?t] |- _ =>
      change (String c s +:+ t) with (String c (s +:+ t)) in H
  | H : context [EmptyString +:+ ?t] |- _ =>
      change (EmptyString +:+ t) with t in H
  end.

(** The end of a canonical statement: nothing, or a semicolon. *)
Definition ending (semicolon : bool) : string :=
  if semicolon then ";" else EmptyString.

(** How many times a character occurs in a text. *)
Fixpoint occurrences (c : ascii) (s : string) : nat :=
  match s with
  | EmptyString => 0
  | String b s' => (if Ascii.eqb b c then 1 else 0) + occurrences c s'
  end.

(** A text without blanks. *)
Definition no_space (c : ascii) : bool := negb (Text.is_space c).

(** * Properties of the matcher *)

Module ReFacts.
Import Re.

Section Results.
Context {A : Type}.
Implicit Types (k : string → string → option A) (x : A).

Lemma orelse_Some (a b : option A) x :
  orelse a b = Some x → a = Some x ∨ (a = None ∧ b = Some x).
Proof. destruct a; simpl; intros; simplify_eq; auto. Qed.

Lemma orelse_None (a b : option A) :
  a = None → b = None → orelse a b = None.
Proof. by intros -> ->. Qed.

(** A result of a repetition is a result of its continuation. *)
Lemma star_sound cls s k x :
  star cls s k = Some x → ∃ m r, k m r = Some x.
Proof.
  revert k. induction s as [|c s IH]; intros k; simpl.
  - eauto.
  - destruct (cls c); [|eauto].
    intros [H|[_ H]]%orelse_Some; [|eauto].
    apply IH in H as (m & r & H). eauto.
Qed.

Lemma plus_sound cls s k x :
  plus cls s k = Some x → ∃ m r, k m r = Some x.
Proof.
  destruct s as [|c s]; simpl; [done|].
  destruct (cls c); [|done].
  intros (m & r & H)%star_sound. eauto.
Qed.

(** A repetition whose continuation always succeeds succeeds. *)
Lemma star_total cls s k :
  (∀ m r, is_Some (k m r)) → is_Some (star cls s k).
Proof.
  revert k. induction s as [|c s IH]; intros k Hk; simpl; [done|].
  destruct (cls c); [|done].
  destruct (IH (λ m r, k (String c m) r)) as [x ->]; [done|].
  by eexists.
Qed.

(** A repetition fails when its continuation fails wherever it can
    be entered. *)
Lemma star_None cls s k :
  (∀ m r, reach cls s r → k m r = None) → star cls s k = None.
Proof.
  revert k. induction s as [|c s IH]; intros k Hk; simpl.
  - apply Hk. constructor.
  - destruct (cls c) eqn:Hc; [|apply Hk; constructor].
    apply orelse_None; [|apply Hk; constructor].
    apply IH. intros m r Hr. apply Hk. by constructor.
Qed.

Lemma plus_None cls s k :
  (∀ m r, reach cls s r → k m r = None) → plus cls s k = None.
Proof.
  intros Hk. destruct s as [|c s]; simpl; [done|].
  destruct (cls c) eqn:Hc; [|done].
  apply star_None. intros m r Hr. apply Hk. by constructor.
Qed.

Lemma alt_None branches s k :
  Text.starts_with_any branches s = false → alt branches s k = None.
Proof.
  induction branches as [|l branches IH]; simpl; [done|].
  intros [Hl Hb]%orb_false_elim.
  apply orelse_None; [|auto].
  destruct (Text.strip_prefix l s) eqn:E; [|done].
  apply bool_decide_eq_false in Hl. destruct Hl. by eexists.
Qed.

End Results.

(** After a run of [cls] characters followed by a text that does not
    start with one, the continuation is entered at the end of the run
    or in front of a [cls] character. *)
Lemma reach_run cls run tail r :
  Text.all cls run = true → Text.head_is cls tail = false →
  reach cls (run +:+ tail) r → r = tail ∨ Text.head_is cls r = true.
Proof.
  intros Hrun Htail. induction run as [|c run IH].
  - change (EmptyString +:+ tail) with tail.
    inversion 1; subst; [by left|].
    simpl in Htail. congruence.
  - change (String c run +:+ tail) with (String c (run +:+ tail)).
    apply andb_prop in Hrun as [Hc Hrun].
    inversion 1; subst; [by right|]. auto.
Qed.

Lemma reach_no_run cls s r :
  Text.head_is cls s = false → reach cls s r → r = s.
Proof. intros Hs. inversion 1; subst; [done|]. simpl in Hs. congruence. Qed.

End ReFacts.

(** * Properties of the character classes *)

Lemma word_not_space c : Text.is_word c = true → Text.is_space c = false.
Proof. destruct c as [[] [] [] [] [] [] [] []]; by vm_compute. Qed.

Lemma head_word_not_space s :
  Text.head_is Text.is_word s = true → Text.head_is Text.is_space s = false.
Proof. destruct s; simpl; [done|]. apply word_not_space. Qed.

Lemma head_space_not_word s :
  Text.head_is Text.is_space s = true → Text.head_is Text.is_word s = false.
Proof.
  destruct s as [|c s]; simpl; [done|]. intros Hs.
  destruct (Text.is_word c) eqn:Hw; [|done].
  apply word_not_space in Hw. congruence.
Qed.

(** No operator starts with a word or a space character. *)
Lemma no_operator_at_word_or_space s :
  Text.head_is Text.is_word s = true ∨ Text.head_is Text.is_space s = true →
  Text.starts_with_any operator_branches s = false.
Proof.
  destruct s as [|c s]; simpl; [by intros [|]|].
  destruct c as [[] [] [] [] [] [] [] []]; vm_compute; intros [|]; congruence.
Qed.

(** * The predicate compiler *)

Section ParseWhere.
Import ReFacts.

Lemma strip_prefix_Some p s r :
  Text.strip_prefix p s = Some r → s = p +:+ r.
Proof.
  revert s. induction p as [|a p IH]; intros [|b s]; simpl; try done.
  - by intros [= <-].
  - by intros [= <-].
  - destruct (Ascii.eqb_spec a b) as [->|]; [|done].
    intros ->%IH. done.
Qed.

Lemma tail_sound l o s3 x :
  condition_regex_tail l o s3 = Some x → ∃ r, x = (l, o, r).
Proof.
  unfold condition_regex_tail.
  intros (_ & s4 & (right & _ & H)%plus_sound)%star_sound.
  simplify_eq. eauto.
Qed.

(** In front of an [=] sign the rest of the pattern always matches:
    [\s*] matches the empty text and [.+] takes the sign. *)
Lemma tail_at_equals l o s :
  is_Some (condition_regex_tail l o (String "=" s)).
Proof.
  unfold condition_regex_tail. simpl. apply star_total. intros m r. by eexists.
Qed.

(** The operator group only ever holds [=], [!=], [<] or [>]: at a
    text that starts with [<=] (or [>=]) the branch [<] (or [>]) comes
    first in the alternation and the rest of the pattern accepts the
    [=] sign as the start of the right operand. *)
Lemma condition_regex_operator condition l o r :
  condition_regex condition = Some (l, o, r) →
  o = "=" ∨ o = "!=" ∨ o = "<" ∨ o = ">".
Proof.
  unfold condition_regex.
  intros (l' & s1 & (_ & s2 & H)%star_sound)%plus_sound.
  change (Re.alt operator_branches s2 (condition_regex_tail l') = Some (l, o, r))
    in H.
  unfold operator_branches in H. cbn [Re.alt] in H.
  repeat (apply orelse_Some in H as [H|[? H]]);
    try (destruct (Text.strip_prefix _ s2) eqn:E in H; [|done];
         apply tail_sound in H as [? ?]; simplify_eq; by auto).
  - (* the branch [<=] is entered only when [<] has failed *)
    destruct (Text.strip_prefix "<=" s2) eqn:E in H; [|done].
    apply strip_prefix_Some in E as ->.
    change ("<=" +:+ s) with (String "<" (String "=" s)) in *.
    match goal with
    | Hlt : context [Text.strip_prefix "<"] |- _ =>
        simpl in Hlt; destruct (tail_at_equals l' "<" s); congruence
    end.
  - destruct (Text.strip_prefix ">=" s2) eqn:E in H; [|done].
    apply strip_prefix_Some in E as ->.
    change (">=" +:+ s) with (String ">" (String "=" s)) in *.
    match goal with
    | Hgt : context [Text.strip_prefix ">"] |- _ =>
        simpl in Hgt; destruct (tail_at_equals l' ">" s); congruence
    end.
  - done.
Qed.

(** The final [else] of the operator chain is never taken. *)
Lemma parse_where_operator_supported condition token :
  _parse_where condition ≠ inl (UnsupportedOperator token).
Proof.
  unfold _parse_where.
  destruct (condition_regex condition) as [[[l o] r]|] eqn:E; [|done].
  apply condition_regex_operator in E as [->|[->|[->| ->]]]; by simpl.
Qed.

(** No compiled predicate compares with [<=] or [>=]. *)
Lemma parse_where_never_le_ge condition p :
  _parse_where condition = inr p → operator p ≠ OpLe ∧ operator p ≠ OpGe.
Proof.
  unfold _parse_where.
  destruct (condition_regex condition) as [[[l o] r]|] eqn:E; [|done].
  apply condition_regex_operator in E as [->|[->|[->| ->]]];
    simpl; intros [= <-]; by simpl.
Qed.

(** The pattern does not match a text in which the identifier and the
    blanks after it are followed by something that does not start
    with an operator. *)
Lemma condition_regex_no_operator ident ws rest :
  Text.all Text.is_word ident = true →
  Text.all Text.is_space ws = true →
  Text.head_is Text.is_space rest = false →
  (ws = EmptyString → Text.head_is Text.is_word rest = false) →
  Text.starts_with_any operator_branches rest = false →
  condition_regex (ident +:+ ws +:+ rest) = None.
Proof.
  intros Hident Hws Hrest Hword Hop.
  assert (Text.head_is Text.is_word (ws +:+ rest) = false) as Hhead.
  { destruct ws as [|c ws]; [by apply Hword|].
    apply andb_prop in Hws as [Hc _].
    by apply (head_space_not_word (String c (ws +:+ rest))). }
  unfold condition_regex. apply plus_None. intros m r Hr.
  apply reach_run in Hr as [-> | Hw]; [| |done..].
  - apply star_None. intros _ r2 Hr2.
    apply reach_run in Hr2 as [-> | Hs]; [| |done..].
    + by apply alt_None.
    + apply alt_None, no_operator_at_word_or_space. by right.
  - apply star_None. intros _ r2 Hr2.
    apply reach_no_run in Hr2 as ->; [|by apply head_word_not_space].
    apply alt_None, no_operator_at_word_or_space. by left.
Qed.

End ParseWhere.

(** C3 (defect of the code).  The claim: a two-character operator
    [!=], [<=] or [>=] in a WHERE clause is recognised as a whole, so
    that ['a <= 5'] compiles to the operator [<=] with right operand
    ['5'].  The code: the alternation lists [<] before [<=] and [>]
    before [>=], so ['a <= 5'] compiles to [row['a'] < '= 5'] and
    ['a >= 5'] to [row['a'] > '= 5']; only [!=], which shares no first
    character with an earlier branch, is recognised. *)
Theorem parse_where_two_character_operators :
  _parse_where "a <= 5" = inr (mkPredicate "a" OpLt "= 5")
  ∧ _parse_where "a >= 5" = inr (mkPredicate "a" OpGt "= 5")
  ∧ _parse_where "a != 5" = inr (mkPredicate "a" OpNe "5").
Proof. repeat split; reflexivity. Qed.

(** A token that starts with an operator of the pattern is not rejected
    at all: the operator is taken and the rest of the token goes to the
    right operand. *)
Example parse_where_double_equals :
  _parse_where "a == 5" = inr (mkPredicate "a" OpEq "= 5")
  ∧ _parse_where "a <> 5" = inr (mkPredicate "a" OpLt "> 5").
Proof. split; reflexivity. Qed.

(** The failing input of C4: ['a ~ 5'] raises the generic error for an
    unsupported condition, not the one that names the operator. *)
Lemma parse_where_tilde_is_generic_error :
  _parse_where "a ~ 5" = inl (UnsupportedCondition "a ~ 5")
  ∧ ¬ ∃ token, _parse_where "a ~ 5" = inl (UnsupportedOperator token).
Proof. split; [reflexivity|]. intros [token H]. vm_compute in H. congruence. Qed.

(** C4 (defect of the code).  The claim: a WHERE clause whose operator
    token is not one of [=], [!=], [<], [<=], [>], [>=] fails with a
    distinct error that names the token.  The code: the pattern admits
    only the listed operators, so such a clause does not match, and it
    fails at the [if not match] guard with the generic
    unsupported-condition error, which carries the whole clause text;
    the [raise] that names the operator, in the final [else] of the
    chain of comparisons, is never reached.  This is stated for every
    ASCII clause text made of word characters, blanks (possibly none
    of either) and a remainder that starts with none of the operators
    of the pattern, the word characters and the blanks being taken as
    long as possible; and no ASCII clause text at all raises the error
    that names an operator. *)
Theorem parse_where_unsupported_operator ident ws rest :
  Text.all Text.is_word ident = true →
  Text.all Text.is_space ws = true →
  Text.is_ascii rest = true →
  Text.head_is Text.is_space rest = false →
  (ws = EmptyString → Text.head_is Text.is_word rest = false) →
  Text.starts_with_any operator_branches rest = false →
  _parse_where (ident +:+ ws +:+ rest)
    = inl (UnsupportedCondition (ident +:+ ws +:+ rest))
  ∧ ∀ condition token,
      Text.is_ascii condition = true →
      _parse_where condition ≠ inl (UnsupportedOperator token).
Proof.
  intros Hident Hws _ Hrest Hword Hop. split.
  - unfold _parse_where.
    by rewrite condition_regex_no_operator.
  - intros condition token _. apply parse_where_operator_supported.
Qed.

Lemma parse_where_unsupported_operator_witness :
  _parse_where "a ~ 5" = inl (UnsupportedCondition "a ~ 5").
Proof.
  refine (proj1 (parse_where_unsupported_operator "a" " " "~ 5" _ _ _ _ _ _));
    solve [reflexivity | intros; discriminate].
Defined.

(** * Properties of the built-ins *)

Module PyFacts.

(** ** The order on text *)

Lemma ltb_le a b : String.ltb a b = true → String.le a b.
Proof.
  unfold String.le, String.leb, String.ltb.
  by destruct (String.compare a b).
Qed.

Lemma not_ltb_le a b : String.ltb a b = false → String.le b a.
Proof.
  unfold String.le, String.leb, String.ltb.
  rewrite (String.compare_antisym a b).
  by destruct (String.compare b a).
Qed.

Lemma compare_refl a : String.compare a a = Eq.
Proof.
  induction a as [|c a IH]; simpl; [done|].
  unfold Ascii.compare. by rewrite N.compare_refl.
Qed.

Lemma ltb_irrefl a : String.ltb a a = false.
Proof. unfold String.ltb. by rewrite compare_refl. Qed.

Lemma eqb_compare a b :
  String.eqb a b = match String.compare a b with Eq => true | _ => false end.
Proof.
  destruct (String.eqb_spec a b) as [->|Hne].
  - by rewrite compare_refl.
  - destruct (String.compare a b) eqn:E; try done.
    by apply String.compare_eq_iff in E.
Qed.

Lemma compare_text_holds op a b :
  compare_text op a b = holds op (String.compare a b).
Proof.
  destruct op; simpl; unfold String.ltb, String.leb.
  - rewrite eqb_compare. by destruct (String.compare a b).
  - rewrite eqb_compare. by destruct (String.compare a b).
  - by destruct (String.compare a b).
  - by destruct (String.compare a b).
  - rewrite (String.compare_antisym a b). by destruct (String.compare b a).
  - rewrite (String.compare_antisym a b). by destruct (String.compare b a).
Qed.

(** ** [zip(..., strict=True)] *)

Lemma zip_strict_same_length {A B} (xs : list A) (ys : list B) :
  length xs = length ys → Py.zip_strict xs ys = inr (zip xs ys).
Proof.
  revert ys. induction xs as [|x xs IH]; intros [|y ys] Hlen;
    simpl in *; try done.
  rewrite IH; [done|lia].
Qed.

Lemma zip_strict_mismatch {A B} (xs : list A) (ys : list B) :
  length xs ≠ length ys → Py.zip_strict xs ys = inl ColumnValueMismatch.
Proof.
  revert ys. induction xs as [|x xs IH]; intros [|y ys] Hlen;
    simpl in *; try done.
  rewrite IH; [done|lia].
Qed.

(** ** Dictionary displays *)

Lemma foldl_put_other pairs (d : gmap string string) c :
  c ∉ pairs.*1 → foldl Py.put d pairs !! c = d !! c.
Proof.
  revert d. induction pairs as [|[k v] pairs IH]; intros d Hc; [done|].
  simpl in *. apply not_elem_of_cons in Hc as [Hne Hc].
  rewrite IH by done. unfold Py.put. simpl. by rewrite lookup_insert_ne.
Qed.

Lemma foldl_put_dom pairs (d : gmap string string) :
  dom (foldl Py.put d pairs) = dom d ∪ list_to_set pairs.*1.
Proof.
  revert d. induction pairs as [|[k v] pairs IH]; intros d; simpl.
  - by rewrite (right_id_L ∅ (∪)).
  - rewrite IH. unfold Py.put. simpl. rewrite dom_insert_L.
    by rewrite (comm_L (∪) {[k]}), (assoc_L (∪)).
Qed.

(** The value of a key is the one paired with its last occurrence. *)
Lemma foldl_put_zip (cols vals : list string) (d : gmap string string) i c :
  length cols = length vals →
  cols !! i = Some c → c ∉ drop (S i) cols →
  foldl Py.put d (zip cols vals) !! c = vals !! i.
Proof.
  revert vals d i.
  induction cols as [|c' cols IH]; intros [|v vals] d i Hlen Hi Hlast;
    simpl in *; try done.
  destruct i as [|i]; simpl in *.
  - injection Hi as ->. rewrite foldl_put_other.
    + unfold Py.put. simpl. by rewrite lookup_insert_eq.
    + rewrite fst_zip by lia. done.
  - apply IH; [lia|done..].
Qed.

Lemma dict_lookup (cols vals : list string) i c :
  length cols = length vals →
  cols !! i = Some c → c ∉ drop (S i) cols →
  Py.dict (zip cols vals) !! c = vals !! i.
Proof. apply foldl_put_zip. Qed.

Lemma dict_dom (cols vals : list string) :
  length cols = length vals →
  dom (Py.dict (zip cols vals)) = list_to_set cols.
Proof.
  intros Hlen. unfold Py.dict.
  rewrite foldl_put_dom, fst_zip by lia.
  by rewrite dom_empty_L, (left_id_L ∅ (∪)).
Qed.

(** ** [list.sort] *)

Lemma insert_by_key_perm (x : keyed) l : Py.insert_by_key x l ≡ₚ x :: l.
Proof.
  induction l as [|y l IH]; simpl; [done|].
  destruct (String.ltb y.1 x.1); [|done].
  rewrite IH. apply Permutation_swap.
Qed.

Lemma sort_decorated_perm (l : list keyed) : Py.sort_decorated l ≡ₚ l.
Proof.
  induction l as [|x l IH]; simpl; [done|].
  by rewrite insert_by_key_perm, IH.
Qed.

Lemma insert_by_key_sorted (x : keyed) l :
  StronglySorted key_le l → StronglySorted key_le (Py.insert_by_key x l).
Proof.
  induction 1 as [|y l Hl IH Hy]; simpl.
  - repeat constructor.
  - destruct (String.ltb y.1 x.1) eqn:E.
    + constructor; [done|].
      rewrite insert_by_key_perm. constructor; [|done].
      by apply ltb_le.
    + apply not_ltb_le in E.
      constructor; [by constructor|].
      constructor; [done|].
      eapply Forall_impl; [done|].
      intros z Hz. unfold key_le in *. by etrans.
Qed.

Lemma sort_decorated_sorted (l : list keyed) :
  StronglySorted key_le (Py.sort_decorated l).
Proof.
  induction l as [|x l IH]; simpl; [constructor|].
  by apply insert_by_key_sorted.
Qed.

(** Stability: restricted to any one key, the list is unchanged. *)
Lemma insert_by_key_stable (x : keyed) l k :
  filter (λ y : keyed, y.1 = k) (Py.insert_by_key x l)
  = filter (λ y : keyed, y.1 = k) (x :: l).
Proof.
  induction l as [|y l IH]; simpl; [done|].
  destruct (String.ltb y.1 x.1) eqn:E; [|done].
  rewrite !filter_cons, IH, !filter_cons.
  destruct (decide (y.1 = k)) as [Hy|]; [|done].
  destruct (decide (x.1 = k)) as [Hx|]; [|done].
  rewrite Hy, Hx, ltb_irrefl in E. done.
Qed.

Lemma sort_decorated_stable (l : list keyed) k :
  filter (λ y : keyed, y.1 = k) (Py.sort_decorated l)
  = filter (λ y : keyed, y.1 = k) l.
Proof.
  induction l as [|x l IH]; simpl; [done|].
  by rewrite insert_by_key_stable, !filter_cons, IH.
Qed.

Lemma comprehension_inr {A B} (f : A → Error + B) xs ys :
  Py.comprehension f xs = inr ys → Forall2 (λ x y, f x = inr y) xs ys.
Proof.
  revert ys. induction xs as [|x xs IH]; intros ys; simpl.
  - intros [= <-]. constructor.
  - destruct (f x) eqn:Ef; simpl; [done|].
    destruct (Py.comprehension f xs); simpl; [done|].
    intros [= <-]. constructor; auto.
Qed.

(** The decorated list pairs every row with its key. *)
Lemma comprehension_getitem (rows : list (gmap string string)) col keys :
  Py.comprehension (λ row, getitem row col) rows = inr keys →
  Forall2 (λ row k, row !! col = Some k) rows keys.
Proof.
  intros H%comprehension_inr. eapply Forall2_impl; [done|].
  intros row k. unfold getitem. by destruct (row !! col); intros [= ->].
Qed.

Lemma filter_snd_keyed (l : list keyed) col k :
  Forall (λ x : keyed, x.2 !! col = Some x.1) l →
  filter (λ row : gmap string string, row !! col = Some k) l.*2
  = (filter (λ y : keyed, y.1 = k) l).*2.
Proof.
  induction 1 as [|x l Hx Hl IH]; [done|].
  rewrite fmap_cons, !filter_cons, IH.
  destruct (decide (x.1 = k)) as [<-|Hne].
  - by rewrite decide_True.
  - rewrite decide_False; [done|]. rewrite Hx. congruence.
Qed.

(** What [rows.sort(key=lambda row: row[col])] leaves in the list,
    when it does not raise: the same rows, by non-decreasing key,
    rows with the same key in their former order. *)
Lemma sort_spec (rows sorted : list (gmap string string)) col :
  Py.sort (λ row, getitem row col) rows = inr sorted →
  ∃ keys,
    Forall2 (λ row k, row !! col = Some k) sorted keys
    ∧ StronglySorted String.le keys
    ∧ sorted ≡ₚ rows
    ∧ ∀ k, filter (λ row : gmap string string, row !! col = Some k) sorted
           = filter (λ row : gmap string string, row !! col = Some k) rows.
Proof.
  unfold Py.sort.
  destruct (Py.comprehension _ rows) as [|keys] eqn:E; simpl; [done|].
  intros [= <-].
  apply comprehension_getitem in E.
  assert (length keys = length rows) as Hlen
    by (symmetry; by eapply Forall2_length).
  assert (Forall (λ x : keyed, x.2 !! col = Some x.1) (zip keys rows)) as Hinv.
  { clear Hlen. induction E; simpl; constructor; auto. }
  set (dec := Py.sort_decorated (zip keys rows)).
  assert (Forall (λ x : keyed, x.2 !! col = Some x.1) dec) as Hdec.
  { unfold dec. by rewrite sort_decorated_perm. }
  exists dec.*1. split_and!.
  - clear -Hdec. induction Hdec; simpl; constructor; auto.
  - pose proof (sort_decorated_sorted (zip keys rows)) as Hs.
    fold dec in Hs. clear -Hs.
    induction Hs as [|x l Hl IH Hx]; simpl; constructor; [done|].
    clear -Hx. induction Hx; simpl; constructor; auto.
  - unfold dec. rewrite sort_decorated_perm. by rewrite snd_zip by lia.
  - intros k. rewrite (filter_snd_keyed dec col k) by done.
    unfold dec. rewrite sort_decorated_stable.
    rewrite <- (filter_snd_keyed _ col k) by done.
    by rewrite snd_zip by lia.
Qed.

(** ** [filter] *)

Lemma filter_always (f : gmap string string → Error + bool) rows :
  (∀ row, f row = inr true) → Py.filter f rows = inr rows.
Proof.
  intros Hf. induction rows as [|row rows IH]; simpl; [done|].
  by rewrite Hf, IH.
Qed.

End PyFacts.

(** * Properties of the engine *)

Module ToyDBFacts.
Import PyFacts.

(** ** [create_table] *)

Lemma create_table_fresh (tables : Tables) name columns :
  tables !! name = None →
  ToyDB.create_table name columns tables = (inr tt, <[name := []]> tables).
Proof.
  intros H. unfold ToyDB.create_table. exec_unfold. by rewrite H.
Qed.

(** ** [_execute_delete] *)

(** Without a predicate every row is kept: a non-empty table is
    replaced by a list of the same rows. *)
Lemma delete_without_where (tables : Tables) name row rows :
  tables !! name = Some (row :: rows) →
  ToyDB._execute_delete (DeleteSQL.mk name None) tables = (inr tt, tables).
Proof.
  intros H. unfold ToyDB._execute_delete. exec_unfold. simpl.
  rewrite H. simpl.
  rewrite (filter_always _ rows) by done. simpl.
  by rewrite insert_id.
Qed.

(** ** [_execute_insert] *)

Lemma insert_mismatch (tables : Tables) query rows :
  tables !! InsertSQL.table query = Some rows →
  length (InsertSQL.columns query) ≠ length (InsertSQL.values query) →
  ToyDB._execute_insert query tables = (inl ColumnValueMismatch, tables).
Proof.
  intros H Hlen. unfold ToyDB._execute_insert. exec_unfold.
  rewrite H. by rewrite zip_strict_mismatch.
Qed.

Lemma insert_append (tables : Tables) query rows :
  tables !! InsertSQL.table query = Some rows →
  length (InsertSQL.columns query) = length (InsertSQL.values query) →
  ToyDB._execute_insert query tables
  = (inr tt,
     <[InsertSQL.table query :=
         rows ++ [Py.dict (zip (InsertSQL.columns query)
                               (InsertSQL.values query))]]> tables).
Proof.
  intros H Hlen. unfold ToyDB._execute_insert. exec_unfold.
  rewrite H. by rewrite zip_strict_same_length.
Qed.

(** ** [_execute_update] *)

Lemma assign_union (assignments : gmap string string) (row : Row) :
  ToyDB.assign assignments row = assignments ∪ row.
Proof.
  unfold ToyDB.assign.
  apply (map_fold_weak_ind (λ r m, r = m ∪ row)).
  - by rewrite (left_id_L ∅ (∪)).
  - intros col val m r Hcol ->. by rewrite insert_union_l.
Qed.

Lemma assign_assigned (assignments : gmap string string) (row : Row) :
  assigned assignments row (ToyDB.assign assignments row).
Proof.
  rewrite assign_union. split.
  - intros col val H. by apply lookup_union_Some_l.
  - intros col H. by apply lookup_union_r.
Qed.

Lemma update_skips_satisfies where_lambda (row : Row) skip :
  ToyDB.update_skips where_lambda row = inr skip →
  satisfies where_lambda row (negb skip).
Proof.
  unfold ToyDB.update_skips, satisfies. destruct where_lambda as [p|].
  - destruct (call p row) as [|b]; simpl; [done|].
    intros [= <-]. by rewrite negb_involutive.
  - by intros [= <-].
Qed.

Lemma update_loop_spec where_lambda assignments (rows rows' : Table) :
  ToyDB.update_loop where_lambda assignments rows = (None, rows') →
  Forall2 (λ row row',
             (satisfies where_lambda row true ∧ assigned assignments row row')
             ∨ (satisfies where_lambda row false ∧ row' = row))
          rows rows'.
Proof.
  revert rows'. induction rows as [|row rows IH]; intros rows'; simpl.
  - intros [= <-]. constructor.
  - destruct (ToyDB.update_skips where_lambda row) as [|skip] eqn:Hskip;
      [done|].
    destruct (ToyDB.update_loop where_lambda assignments rows) as [e rest].
    intros [= -> <-]. constructor; [|by apply IH].
    apply update_skips_satisfies in Hskip.
    destruct skip; simpl in *; [by right|left].
    split; [done|]. apply assign_assigned.
Qed.

(** ** The monad *)

Lemma bind_inr {A B} (c : Exec.t A) (k : A → Exec.t B)
    (tables tables'' : Tables) y :
  (c ≫= k) tables = (inr y, tables'') →
  ∃ x tables', c tables = (inr x, tables') ∧ k x tables' = (inr y, tables'').
Proof.
  unfold mbind, exec_bind, Exec.bind.
  destruct (c tables) as [[e|x] tables']; [done|]. eauto.
Qed.

Lemma lift_inr {A} (r : Error + A) (tables tables' : Tables) x :
  Exec.lift r tables = (inr x, tables') → r = inr x ∧ tables' = tables.
Proof. unfold Exec.lift. by intros [= -> ->]. Qed.

Lemma ret_inr {A} (x y : A) (tables tables' : Tables) :
  (mret x : Exec.t A) tables = (inr y, tables') → y = x ∧ tables' = tables.
Proof. unfold mret, exec_ret, Exec.ret. by intros [= -> ->]. Qed.

Lemma read_inr r (tables tables' : Tables) rows :
  Ref.read r tables = (inr rows, tables') →
  rows = Ref.rows_of r tables ∧ tables' = tables.
Proof. unfold Ref.read. by intros [= <- <-]. Qed.

Lemma rows_of_write r (tables tables' : Tables) rows r' :
  Ref.write r rows tables = (inr r', tables') →
  Ref.rows_of r' tables' = rows.
Proof.
  destruct r as [name|old]; simpl.
  - exec_unfold. intros [= <- <-]. simpl. by rewrite lookup_insert_eq.
  - intros [-> ->]%ret_inr. done.
Qed.

(** ** [_execute_select] *)

Lemma foldl_put_agree pairs (d : Row) col v :
  (∀ kv, kv ∈ pairs → kv.1 = col → kv.2 = v) →
  col ∈ pairs.*1 ∨ d !! col = Some v →
  foldl Py.put d pairs !! col = Some v.
Proof.
  revert d. induction pairs as [|[k x] pairs IH]; intros d Hall Hin; simpl.
  - destruct Hin as [Hin|]; [|done]. by apply elem_of_nil in Hin.
  - apply IH.
    + intros kv Hkv. apply Hall. by right.
    + unfold Py.put. simpl. destruct (decide (k = col)) as [->|Hne].
      * right. rewrite lookup_insert_eq. f_equal.
        apply (Hall (col, x)); [by left|done].
      * rewrite lookup_insert_ne by done.
        destruct Hin as [Hin|]; [|by right].
        simpl in Hin. apply elem_of_cons in Hin as [|]; [congruence|by left].
Qed.

(** A projected row has the value of the row at every requested
    column. *)
Lemma project_lookup columns (row out : Row) col :
  ToyDB.project columns row = inr out → col ∈ columns →
  out !! col = row !! col.
Proof.
  unfold ToyDB.project.
  destruct (Py.comprehension _ columns) as [|pairs] eqn:E; simpl; [done|].
  intros [= <-] Hcol. apply comprehension_inr in E.
  assert (Forall2 (λ c kv, kv.1 = c ∧ row !! c = Some kv.2) columns pairs) as H.
  { eapply Forall2_impl; [done|]. intros c kv. unfold getitem.
    destruct (row !! c); simpl; [|done]. by intros [= <-]. }
  clear E.
  assert (pairs.*1 = columns) as Hfst.
  { clear Hcol. induction H as [|c kv cs kvs [Hk _] _ IH]; [done|].
    by rewrite fmap_cons, Hk, IH. }
  assert (∀ kv, kv ∈ pairs → row !! kv.1 = Some kv.2) as Hval.
  { clear -H. induction H as [|c kv cs kvs [<- Hv] _ IH]; intros kv' Hkv'.
    - by apply elem_of_nil in Hkv'.
    - apply elem_of_cons in Hkv' as [->|]; auto. }
  destruct (row !! col) as [v|] eqn:Hv.
  - apply foldl_put_agree; [|left; by rewrite Hfst].
    intros kv Hkv <-. apply Hval in Hkv. congruence.
  - exfalso. rewrite <- Hfst in Hcol.
    apply list_elem_of_fmap in Hcol as (kv & -> & Hkv).
    apply Hval in Hkv. congruence.
Qed.

Lemma select_not_truthy (tables : Tables) query :
  Py.truthy_list (tables !! SelectSQL.table query) = false →
  ToyDB._execute_select query tables
  = (inl (TableNotFound (SelectSQL.table query)), tables).
Proof.
  intros H. unfold ToyDB._execute_select. exec_unfold. by rewrite H.
Qed.

(** A Select with a WHERE clause, or without ORDER BY, leaves the store
    as it was, whatever its outcome. *)
Lemma select_keeps_store (tables : Tables) sel :
  is_Some (SelectSQL.where_lambda sel)
  ∨ Py.truthy_str (SelectSQL.orderby sel) = false →
  (ToyDB._execute_select sel tables).2 = tables.
Proof.
  intros H. unfold ToyDB._execute_select. exec_unfold.
  destruct (Py.truthy_list (tables !! SelectSQL.table sel)); [|done].
  cbn [negb].
  destruct (SelectSQL.where_lambda sel) as [p|].
  - destruct (Py.filter _ _); [done|]. simpl.
    destruct (Py.truthy_str _); simpl.
    + destruct (Py.sort _ _); [done|].
      destruct (decide _); [|done]. simpl.
      by destruct (Py.comprehension _ _).
    + destruct (decide _); [|done]. simpl.
      by destruct (Py.comprehension _ _).
  - destruct H as [[? H]| ->]; [done|].
    destruct (decide _); [|done]. simpl.
    by destruct (Py.comprehension _ _).
Qed.

(** A Select with ORDER BY and without WHERE clause sorts the list the
    store holds. *)
Lemma select_sorts_store (tables : Tables) sel col row rows sorted :
  SelectSQL.where_lambda sel = None →
  SelectSQL.orderby sel = Some col → col ≠ EmptyString →
  tables !! SelectSQL.table sel = Some (row :: rows) →
  Py.sort (λ r, getitem r col) (row :: rows) = inr sorted →
  (ToyDB._execute_select sel tables).2
  = <[SelectSQL.table sel := sorted]> tables.
Proof.
  intros Hwhere Horder Hcol Htable Hsort.
  unfold ToyDB._execute_select. exec_unfold.
  rewrite Htable, Hwhere, Horder. destruct col as [|c col]; [done|].
  cbn [negb Py.truthy_list Py.truthy_str Ref.rows_of default from_option id].
  rewrite Htable. change (default [] (Some (row :: rows))) with (row :: rows).
  rewrite Hsort. exec_unfold. cbn [fst snd].
  destruct (decide _); [|done]. simpl.
  by destruct (Py.comprehension _ _).
Qed.

End ToyDBFacts.

(** * The claims about the engine *)

Import PyFacts ToyDBFacts.

(** C1 (defect of the code).  The claim: [DELETE FROM T] without WHERE
    empties [T].  The code keeps a row when
    [not (where_lambda and where_lambda(row))] holds; without a
    predicate the conjunction is [None], so every row is kept and the
    table is left as it was.  [_execute_select] and [_execute_update]
    treat a missing predicate as satisfied by every row. *)
Theorem delete_without_where_keeps_rows :
  let tables : Tables := {[ "t" := [ {[ "a" := "1" ]} ] ]} in
  ToyDB._execute_delete (DeleteSQL.mk "t" None) tables = (inr tt, tables)
  ∧ tables !! "t" = Some [ {[ "a" := "1" ]} ].
Proof. split; vm_compute; reflexivity. Qed.

(** C2 (defect of the code).  The claim: a Select leaves the store as it
    was, ORDER BY reordering the result only.  The code binds [result]
    to the stored list, and [result.sort] sorts it in place unless a
    WHERE clause has replaced [result] by a fresh list before: after
    [SELECT * FROM t ORDER BY a] the table itself is sorted. *)
Theorem select_order_by_sorts_stored_table :
  let tables : Tables := {[ "t" := [ {[ "a" := "2" ]}; {[ "a" := "1" ]} ] ]} in
  let sorted : Table := [ {[ "a" := "1" ]}; {[ "a" := "2" ]} ] in
  ToyDB._execute_select (SelectSQL.mk ["*"] "t" None (Some "a")) tables
  = (inr sorted, {[ "t" := sorted ]})
  ∧ tables !! "t" ≠ ({[ "t" := sorted ]} : Tables) !! "t".
Proof.
  split; [vm_compute; reflexivity|].
  intros H. vm_compute in H. discriminate H.
Qed.

(** C10.  For a table name that is not in the store, [create_table]
    gives the same outcome and the same store whatever columns are
    declared: the name is bound to the empty list, the other tables are
    as before, and every later statement therefore runs alike. *)
Theorem create_table_ignores_columns (tables : Tables) name c1 c2 :
  tables !! name = None →
  ToyDB.create_table name c1 tables = ToyDB.create_table name c2 tables
  ∧ ToyDB.create_table name c1 tables = (inr tt, <[name := []]> tables)
  ∧ (<[name := []]> tables : Tables) !! name = Some []
  ∧ (∀ other, other ≠ name →
       (<[name := []]> tables : Tables) !! other = tables !! other)
  ∧ ∀ parsed,
      ToyDB.execute parsed (ToyDB.create_table name c1 tables).2
      = ToyDB.execute parsed (ToyDB.create_table name c2 tables).2.
Proof.
  intros H. rewrite !create_table_fresh by done. split_and!; try done.
  - apply lookup_insert_eq.
  - intros other Hne. by apply lookup_insert_ne.
Qed.

Lemma create_table_ignores_columns_witness :
  ToyDB.create_table "users" ["id"; "name"; "age"] ∅
  = ToyDB.create_table "users" [] ∅.
Proof.
  refine (proj1 (create_table_ignores_columns ∅ "users" ["id"; "name"; "age"] [] _)).
  reflexivity.
Defined.

(** C9.  Calling a compiled predicate on a row looks the column up: when
    the row has no such column the [KeyError] reaches the caller (the
    call does not answer false), and when it has one the answer is the
    operator applied to the lexicographic comparison of the stored text
    with the literal.  Nothing is read as a number: ['9' < '10'] is
    false. *)
Theorem call_looks_up_and_compares_text p (row : Row) :
  call p row
  = match row !! left p with
    | None => inl (RowKeyError (left p))
    | Some v => inr (holds (operator p) (String.compare v (right p)))
    end
  ∧ call (mkPredicate "n" OpLt "10") {[ "n" := "9" ]} = inr false.
Proof.
  split; [|by vm_compute].
  unfold call, getitem. destruct (row !! left p); simpl; [|done].
  unfold mret, result_ret. by rewrite compare_text_holds.
Qed.

(** C5.  On a table that is in the store with no rows, a Select fails
    with the table-not-found error, the store being left as it was,
    whereas an Insert is carried out: it appends its row when it pairs
    as many values as columns, and otherwise fails on the pairing, not
    on the table. *)
Theorem empty_table_select_fails_insert_proceeds (tables : Tables) sel ins :
  tables !! SelectSQL.table sel = Some [] →
  InsertSQL.table ins = SelectSQL.table sel →
  ToyDB._execute_select sel tables
  = (inl (TableNotFound (SelectSQL.table sel)), tables)
  ∧ ToyDB._execute_insert ins tables
    = if decide (length (InsertSQL.columns ins) = length (InsertSQL.values ins))
      then (inr tt,
            <[InsertSQL.table ins :=
                [Py.dict (zip (InsertSQL.columns ins) (InsertSQL.values ins))]]>
              tables)
      else (inl ColumnValueMismatch, tables).
Proof.
  intros Hempty Htable. split.
  - apply select_not_truthy. by rewrite Hempty.
  - rewrite <- Htable in Hempty. case_decide.
    + by rewrite (insert_append tables ins []).
    + by rewrite (insert_mismatch tables ins []).
Qed.

Lemma empty_table_select_fails_insert_proceeds_witness :
  let tables : Tables := {[ "users" := [] ]} in
  ToyDB._execute_select (SelectSQL.mk ["*"] "users" None None) tables
  = (inl (TableNotFound "users"), tables)
  ∧ ToyDB._execute_insert (InsertSQL.mk "users" ["id"] ["1"]) tables
    = (inr tt, <["users" := [Py.dict [("id", "1")]]]> tables).
Proof.
  exact (empty_table_select_fails_insert_proceeds
           {[ "users" := [] ]}
           (SelectSQL.mk ["*"] "users" None None)
           (InsertSQL.mk "users" ["id"] ["1"])
           eq_refl eq_refl).
Defined.

(** C6.  An Insert on a table that is in the store: when the numbers of
    columns and of values differ it fails with the mismatch error and
    the store is left as it was; when they agree it appends one row at
    the end of the table, whose columns are the listed ones and in
    which the column at position [i] holds the value at position [i]
    (for a column listed more than once, its last position). *)
Theorem insert_pairs_columns_with_values (tables : Tables) ins rows :
  tables !! InsertSQL.table ins = Some rows →
  (length (InsertSQL.columns ins) ≠ length (InsertSQL.values ins) →
   ToyDB._execute_insert ins tables = (inl ColumnValueMismatch, tables))
  ∧ (length (InsertSQL.columns ins) = length (InsertSQL.values ins) →
     ∃ row : Row,
       ToyDB._execute_insert ins tables
       = (inr tt, <[InsertSQL.table ins := rows ++ [row]]> tables)
       ∧ dom row = list_to_set (InsertSQL.columns ins)
       ∧ ∀ i c, InsertSQL.columns ins !! i = Some c →
                c ∉ drop (S i) (InsertSQL.columns ins) →
                row !! c = InsertSQL.values ins !! i).
Proof.
  intros Htable. split.
  - by apply (insert_mismatch tables ins rows).
  - intros Hlen. eexists. split_and!.
    + by apply (insert_append tables ins rows).
    + by apply dict_dom.
    + intros i c. by apply dict_lookup.
Qed.

Lemma insert_pairs_columns_with_values_witness :
  let tables : Tables := {[ "users" := [ {[ "id" := "1" ]} ] ]} in
  ToyDB._execute_insert (InsertSQL.mk "users" ["id"; "name"] ["2"]) tables
  = (inl ColumnValueMismatch, tables).
Proof.
  refine (proj1 (insert_pairs_columns_with_values
                   {[ "users" := [ {[ "id" := "1" ]} ] ]}
                   (InsertSQL.mk "users" ["id"; "name"] ["2"])
                   [ {[ "id" := "1" ]} ] eq_refl) _).
  simpl. lia.
Defined.

(** C8.  An Update that is carried out without error leaves in the
    table, position by position, the rows it found there: a row on
    which the predicate holds (any row, when there is no predicate) has
    every assigned column set to its literal, the column being created
    when the row did not have it, and its other columns untouched; a
    row on which the predicate does not hold is exactly as before. *)
Theorem update_assigns_matching_rows (tables tables' : Tables) upd :
  ToyDB._execute_update upd tables = (inr tt, tables') →
  ∃ rows rows' : Table,
    tables !! UpdateSQL.table upd = Some rows
    ∧ tables' = <[UpdateSQL.table upd := rows']> tables
    ∧ Forall2
        (λ row row',
           (satisfies (UpdateSQL.where_lambda upd) row true
            ∧ assigned (UpdateSQL.assignments upd) row row')
           ∨ (satisfies (UpdateSQL.where_lambda upd) row false ∧ row' = row))
        rows rows'.
Proof.
  unfold ToyDB._execute_update. exec_unfold.
  destruct (tables !! UpdateSQL.table upd) as [[|row rows]|] eqn:Htable;
    try done.
  change (default [] (Some (row :: rows))) with (row :: rows).
  destruct (ToyDB.update_loop _ _ (row :: rows)) as [[e|] rows'] eqn:Hloop;
    simpl; [done|].
  intros [= <-]. exists (row :: rows), rows'. split_and!; try done.
  by apply update_loop_spec.
Qed.

Lemma update_assigns_matching_rows_witness :
  let alice : Row := {[ "id" := "1"; "age" := "30" ]} in
  let bob : Row := {[ "id" := "2"; "age" := "25" ]} in
  let upd := UpdateSQL.mk "users" {[ "age" := "40"; "seen" := "yes" ]}
               (Some (mkPredicate "id" OpEq "1")) in
  ∃ rows rows' : Table,
    ({[ "users" := [alice; bob] ]} : Tables) !! UpdateSQL.table upd = Some rows
    ∧ ({[ "users" :=
            [ {[ "id" := "1"; "age" := "40"; "seen" := "yes" ]}; bob ] ]}
        : Tables)
      = <[UpdateSQL.table upd := rows']> {[ "users" := [alice; bob] ]}
    ∧ Forall2
        (λ row row',
           (satisfies (UpdateSQL.where_lambda upd) row true
            ∧ assigned (UpdateSQL.assignments upd) row row')
           ∨ (satisfies (UpdateSQL.where_lambda upd) row false ∧ row' = row))
        rows rows'.
Proof.
  intros alice bob upd.
  apply (update_assigns_matching_rows {[ "users" := [alice; bob] ]}).
  vm_compute. reflexivity.
Defined.

(** C7.  A Select with ORDER BY [col] that is carried out without error
    returns the rows that passed the WHERE filter, sorted by their text
    at [col]: the keys are non-decreasing, and the rows with any one
    key are in the order in which the table had them.  The returned
    rows are these rows themselves for [*], and otherwise their
    projections, which carry the key whenever [col] is among the
    requested columns. *)
Theorem select_order_by_is_stable (tables tables' : Tables) sel col result :
  SelectSQL.orderby sel = Some col → col ≠ EmptyString →
  ToyDB._execute_select sel tables = (inr result, tables') →
  ∃ (before sorted : Table) (keys : list string),
    passing (SelectSQL.where_lambda sel)
            (default [] (tables !! SelectSQL.table sel)) before
    ∧ returned (SelectSQL.columns sel) sorted result
    ∧ Forall2 (λ row k, row !! col = Some k) sorted keys
    ∧ StronglySorted String.le keys
    ∧ sorted ≡ₚ before
    ∧ (∀ k, filter (λ row : Row, row !! col = Some k) sorted
            = filter (λ row : Row, row !! col = Some k) before)
    ∧ (SelectSQL.columns sel = ["*"] ∨ col ∈ SelectSQL.columns sel →
       Forall2 (λ out k, out !! col = Some k) result keys).
Proof.
  intros Horder Hcol. unfold ToyDB._execute_select.
  intros (table & t0 & [= <- <-] & H)%bind_inr.
  destruct (Py.truthy_list (tables !! SelectSQL.table sel)); [|done].
  cbn [negb] in H.
  apply bind_inr in H as (r1 & t1 & Hfilter & H).
  apply bind_inr in H as (r2 & t2 & Hsort & H).
  apply bind_inr in H as (r3 & t3 & Hproject & H).
  apply read_inr in H as [-> ->].
  (* the filter *)
  assert (passing (SelectSQL.where_lambda sel)
            (default [] (tables !! SelectSQL.table sel)) (Ref.rows_of r1 t1))
    as Hpassing.
  { unfold passing. destruct (SelectSQL.where_lambda sel) as [p|].
    - apply bind_inr in Hfilter as (rows & t & [-> ->]%read_inr & Hfilter).
      apply bind_inr in Hfilter as (kept & t & [Hkept ->]%lift_inr & Hfilter).
      apply ret_inr in Hfilter as [-> ->]. done.
    - apply ret_inr in Hfilter as [-> ->]. done. }
  (* the sort *)
  rewrite Horder in Hsort. destruct col as [|c col]; [done|].
  cbn [Py.truthy_str default from_option id] in Hsort.
  apply bind_inr in Hsort as (rows & t & [-> ->]%read_inr & Hsort).
  apply bind_inr in Hsort as (sorted & t & [Hsorted ->]%lift_inr & Hsort).
  apply rows_of_write in Hsort.
  apply sort_spec in Hsorted as (keys & Hkeys & Hle & Hperm & Hstable).
  (* the projection *)
  assert (returned (SelectSQL.columns sel) sorted (Ref.rows_of r3 t3))
    as Hreturned.
  { unfold returned. destruct (decide (SelectSQL.columns sel ≠ ["*"])).
    - rewrite decide_False by done.
      apply bind_inr in Hproject as (rows & t & [-> ->]%read_inr & Hproject).
      apply bind_inr in Hproject
        as (projected & t & [Hprojected ->]%lift_inr & Hproject).
      apply ret_inr in Hproject as [-> ->]. by rewrite Hsort in Hprojected.
    - apply ret_inr in Hproject as [-> ->].
      rewrite decide_True by (by apply dec_stable). done. }
  exists (Ref.rows_of r1 t1), sorted, keys. split_and!; try done.
  intros Hcolumns. unfold returned in Hreturned.
  destruct (decide (SelectSQL.columns sel = ["*"])) as [Hstar|Hstar].
  - by rewrite Hreturned.
  - destruct Hcolumns as [|Hin]; [done|].
    apply comprehension_inr in Hreturned.
    clear -Hreturned Hkeys Hin. revert keys Hkeys.
    induction Hreturned as [|row out rows outs Hout _ IH];
      intros keys; inversion 1; subst; constructor; [|by apply IH].
    erewrite project_lookup; done.
Qed.

Lemma select_order_by_is_stable_witness :
  let r (k n : string) : Row := {[ "k" := k; "n" := n ]} in
  let tables : Tables :=
    {[ "t" := [r "b" "1"; r "a" "2"; r "b" "3"; r "a" "4"] ]} in
  let sel := SelectSQL.mk ["*"] "t" None (Some "k") in
  let result := [r "a" "2"; r "a" "4"; r "b" "1"; r "b" "3"] in
  ∃ (before sorted : Table) (keys : list string),
    passing (SelectSQL.where_lambda sel)
            (default [] (tables !! SelectSQL.table sel)) before
    ∧ returned (SelectSQL.columns sel) sorted result
    ∧ Forall2 (λ row k, row !! "k" = Some k) sorted keys
    ∧ StronglySorted String.le keys
    ∧ sorted ≡ₚ before
    ∧ (∀ k, filter (λ row : Row, row !! "k" = Some k) sorted
            = filter (λ row : Row, row !! "k" = Some k) before)
    ∧ (SelectSQL.columns sel = ["*"] ∨ "k" ∈ SelectSQL.columns sel →
       Forall2 (λ out k, out !! "k" = Some k) result keys).
Proof.
  intros r tables sel result.
  apply (select_order_by_is_stable tables {[ "t" := result ]} sel "k" result).
  - reflexivity.
  - discriminate.
  - vm_compute. reflexivity.
Defined.

(** * Further properties of the engine *)

Module EngineFacts.

(** What [list(filter(f, rows))] holds when no call raises. *)
Lemma filter_inr (f : gmap string string → Error + bool) rows kept :
  Py.filter f rows = inr kept →
  kept = filter (λ row, f row = inr true) rows
  ∧ Forall (λ row, ∃ b, f row = inr b) rows.
Proof.
  revert kept. induction rows as [|row rows IH]; intros kept; simpl.
  - intros [= <-]. by split.
  - destruct (f row) as [|b] eqn:Hf; simpl; [done|].
    destruct (Py.filter f rows) as [|rest]; simpl; [done|].
    destruct (IH rest eq_refl) as [-> Hall].
    intros [= <-]. rewrite filter_cons. split.
    + destruct b.
      * by rewrite decide_True.
      * by rewrite decide_False by congruence.
    + constructor; eauto.
Qed.

(** The first call that raises ends [filter]. *)
Lemma filter_inl (f : gmap string string → Error + bool) rows e :
  (∀ row e', f row = inl e' → e' = e) →
  Exists (λ row, ∃ e', f row = inl e') rows →
  Py.filter f rows = inl e.
Proof.
  intros Hf. induction 1 as [row rows [e' He']|row rows _ IH]; simpl.
  - rewrite He'. simpl. f_equal. by eapply Hf.
  - destruct (f row) as [e'|b] eqn:Hrow; simpl.
    + f_equal. by eapply Hf.
    + by rewrite IH.
Qed.

Lemma call_inl p (row : gmap string string) e :
  call p row = inl e → e = RowKeyError (left p) ∧ row !! left p = None.
Proof.
  unfold call, getitem. destruct (row !! left p); simpl; [done|].
  by intros [= <-].
Qed.

Lemma call_inr p (row : gmap string string) b :
  call p row = inr b → is_Some (row !! left p).
Proof.
  unfold call, getitem. destruct (row !! left p); simpl; [eauto|done].
Qed.

Lemma call_missing p (row : gmap string string) :
  row !! left p = None → call p row = inl (RowKeyError (left p)).
Proof. unfold call, getitem. by intros ->. Qed.

Lemma delete_keeps_call p (row : gmap string string) :
  ToyDB.delete_keeps (Some p) row
  = match call p row with inl e => inl e | inr b => inr (negb b) end.
Proof. unfold ToyDB.delete_keeps. by destruct (call p row). Qed.

End EngineFacts.

Import EngineFacts.

(** X1.  A Delete with a WHERE clause that is carried out without error
    found a non-empty table in which every row has the predicate's
    column, and leaves in its place the rows on which the predicate is
    false, in their order; the other tables are not touched. *)
Theorem delete_where_keeps_the_other_rows (tables tables' : Tables) q p :
  DeleteSQL.where_lambda q = Some p →
  ToyDB._execute_delete q tables = (inr tt, tables') →
  ∃ rows : Table,
    tables !! DeleteSQL.table q = Some rows
    ∧ rows ≠ []
    ∧ Forall (λ row : Row, is_Some (row !! left p)) rows
    ∧ tables'
      = <[DeleteSQL.table q :=
            filter (λ row : Row, call p row = inr false) rows]> tables.
Proof.
  intros Hwhere. unfold ToyDB._execute_delete. exec_unfold. rewrite Hwhere.
  destruct (tables !! DeleteSQL.table q) as [[|row rows]|] eqn:Htable;
    try done.
  change (default [] (Some (row :: rows))) with (row :: rows).
  destruct (Py.filter _ (row :: rows)) as [|kept] eqn:Hkept; [done|].
  intros [= <-]. exists (row :: rows). split_and!; try done.
  - apply filter_inr in Hkept as [_ Hall].
    eapply Forall_impl; [done|]. intros r [b Hb].
    rewrite delete_keeps_call in Hb.
    destruct (call p r) as [|b'] eqn:Hcall; [done|]. by eapply call_inr.
  - f_equal. apply filter_inr in Hkept as [-> Hall].
    apply list_filter_iff. intros r. rewrite delete_keeps_call.
    destruct (call p r) as [|[]]; simpl; split; congruence.
Qed.

Lemma delete_where_keeps_the_other_rows_witness :
  let bob : Row := {[ "name" := "Bob"; "age" := "25" ]} in
  let eve : Row := {[ "name" := "Eve"; "age" := "35" ]} in
  let p := mkPredicate "age" OpLt "30" in
  ∃ rows : Table,
    ({[ "users" := [bob; eve] ]} : Tables) !! "users" = Some rows
    ∧ rows ≠ []
    ∧ Forall (λ row : Row, is_Some (row !! left p)) rows
    ∧ ({[ "users" := [eve] ]} : Tables)
      = <["users" := filter (λ row : Row, call p row = inr false) rows]>
          {[ "users" := [bob; eve] ]}.
Proof.
  intros bob eve p.
  apply (delete_where_keeps_the_other_rows
           {[ "users" := [bob; eve] ]} {[ "users" := [eve] ]}
           (DeleteSQL.mk "users" (Some p)) p eq_refl).
  vm_compute. reflexivity.
Defined.

(** X2.  When some row of the table lacks the column of the predicate, a
    Select and a Delete with that predicate both fail with the key
    error for that column, and the store is left as it was. *)
Theorem where_on_missing_column_raises (tables : Tables) sel del p rows row :
  SelectSQL.where_lambda sel = Some p →
  DeleteSQL.where_lambda del = Some p →
  DeleteSQL.table del = SelectSQL.table sel →
  tables !! SelectSQL.table sel = Some rows →
  row ∈ rows → row !! left p = None →
  ToyDB._execute_select sel tables = (inl (RowKeyError (left p)), tables)
  ∧ ToyDB._execute_delete del tables = (inl (RowKeyError (left p)), tables).
Proof.
  intros Hsel Hdel Htable Hrows Hrow Hmissing.
  assert (rows ≠ []) as Hne by (intros ->; by apply elem_of_nil in Hrow).
  split.
  - unfold ToyDB._execute_select. exec_unfold. rewrite Hrows, Hsel.
    destruct rows as [|r rows]; [done|]. cbn -[Py.filter].
    rewrite Hrows. cbn -[Py.filter].
    rewrite (filter_inl (call p) (r :: rows) (RowKeyError (left p))); [done|..].
    + intros r' e' [-> _]%call_inl. done.
    + apply Exists_exists. exists row. split; [done|].
      eexists. by apply call_missing.
  - unfold ToyDB._execute_delete. exec_unfold. rewrite Htable, Hrows, Hdel.
    destruct rows as [|r rows]; [done|]. cbn -[Py.filter].
    rewrite (filter_inl _ (r :: rows) (RowKeyError (left p))); [done|..].
    + intros r' e'. rewrite delete_keeps_call.
      destruct (call p r') as [e''|] eqn:Hcall; [|done].
      apply call_inl in Hcall as [-> _]. by intros [= <-].
    + apply Exists_exists. exists row. split; [done|].
      eexists. by rewrite delete_keeps_call, call_missing.
Qed.

Lemma where_on_missing_column_raises_witness :
  let tables : Tables := {[ "t" := [ {[ "a" := "1" ]}; {[ "b" := "2" ]} ] ]} in
  let p := mkPredicate "a" OpEq "1" in
  ToyDB._execute_select (SelectSQL.mk ["*"] "t" (Some p) None) tables
  = (inl (RowKeyError "a"), tables)
  ∧ ToyDB._execute_delete (DeleteSQL.mk "t" (Some p)) tables
    = (inl (RowKeyError "a"), tables).
Proof.
  intros tables p.
  apply (where_on_missing_column_raises tables
           (SelectSQL.mk ["*"] "t" (Some p) None) (DeleteSQL.mk "t" (Some p))
           p [ {[ "a" := "1" ]}; {[ "b" := "2" ]} ] {[ "b" := "2" ]});
    try reflexivity.
  apply elem_of_cons; right. apply elem_of_cons; by left.
Defined.

Module UpdateFacts.

Lemma update_skips_inl where_lambda (row : gmap string string) e :
  ToyDB.update_skips where_lambda row = inl e →
  ∃ p, where_lambda = Some p ∧ e = RowKeyError (left p)
       ∧ row !! left p = None.
Proof.
  unfold ToyDB.update_skips. destruct where_lambda as [p|]; [|done].
  destruct (call p row) as [e'|] eqn:Hcall; simpl; [|done].
  intros [= <-]. apply call_inl in Hcall as [-> ?]. eauto.
Qed.

(** The loop of [_execute_update] when the predicate raises: the rows in
    front of the offending one have been dealt with, the offending row
    and the rows behind it are as they were. *)
Lemma update_loop_raises where_lambda assignments
    (rows rows' : list (gmap string string)) e :
  ToyDB.update_loop where_lambda assignments rows = (Some e, rows') →
  ∃ done done' bad rest,
    rows = done ++ bad :: rest
    ∧ rows' = done' ++ bad :: rest
    ∧ ToyDB.update_skips where_lambda bad = inl e
    ∧ Forall2 (λ row row',
                 (satisfies where_lambda row true
                  ∧ assigned assignments row row')
                 ∨ (satisfies where_lambda row false ∧ row' = row))
              done done'.
Proof.
  revert rows'. induction rows as [|row rows IH]; intros rows'; simpl; [done|].
  destruct (ToyDB.update_skips where_lambda row) as [e'|skip] eqn:Hskip.
  - intros [= <- <-]. exists [], [], row, rows. split_and!; try done.
  - destruct (ToyDB.update_loop where_lambda assignments rows) as [e' rest'].
    intros [= -> <-].
    destruct (IH rest' eq_refl) as (done & done' & bad & rest & -> & -> & ? & ?).
    eexists (row :: done), (_ :: done'), bad, rest. split_and!; try done.
    constructor; [|done].
    apply update_skips_satisfies in Hskip.
    destruct skip; simpl in *; [by right|left].
    split; [done|]. apply assign_assigned.
Qed.

End UpdateFacts.

(** X3.  An Update that fails has either found no rows under its table
    name, and then changed nothing, or met a row that lacks the column
    of its predicate: the error is the key error for that column, the
    rows in front of that row have been updated like in a successful
    run, and that row and the rows behind it are as they were. *)
Theorem update_failure_is_partial (tables tables' : Tables) upd e :
  ToyDB._execute_update upd tables = (inl e, tables') →
  (e = TableNotFound (UpdateSQL.table upd) ∧ tables' = tables
   ∧ Py.truthy_list (tables !! UpdateSQL.table upd) = false)
  ∨ ∃ p (done done' : Table) (bad : Row) (rest : Table),
      UpdateSQL.where_lambda upd = Some p
      ∧ e = RowKeyError (left p) ∧ bad !! left p = None
      ∧ tables !! UpdateSQL.table upd = Some (done ++ bad :: rest)
      ∧ tables' = <[UpdateSQL.table upd := done' ++ bad :: rest]> tables
      ∧ Forall2
          (λ row row',
             (satisfies (UpdateSQL.where_lambda upd) row true
              ∧ assigned (UpdateSQL.assignments upd) row row')
             ∨ (satisfies (UpdateSQL.where_lambda upd) row false
                ∧ row' = row))
          done done'.
Proof.
  unfold ToyDB._execute_update. exec_unfold.
  destruct (tables !! UpdateSQL.table upd) as [[|row rows]|] eqn:Htable;
    try (intros [= <- <-]; by left).
  change (default [] (Some (row :: rows))) with (row :: rows).
  cbn [Py.truthy_list negb].
  destruct (ToyDB.update_loop _ _ (row :: rows)) as [[e'|] rows'] eqn:Hloop;
    simpl; [|done].
  intros [= <- <-]. right.
  apply UpdateFacts.update_loop_raises
    in Hloop as (done & done' & bad & rest & -> & -> & Hbad & Hdone).
  apply UpdateFacts.update_skips_inl in Hbad as (p & Hp & -> & Hmissing).
  exists p, done, done', bad, rest. by split_and!.
Qed.

Lemma update_failure_is_partial_witness :
  let r1 : Row := {[ "id" := "1"; "age" := "30" ]} in
  let r2 : Row := {[ "name" := "x" ]} in
  let r3 : Row := {[ "id" := "1"; "age" := "31" ]} in
  let tables : Tables := {[ "t" := [r1; r2; r3] ]} in
  let tables' : Tables := {[ "t" := [ <["age" := "40"]> r1; r2; r3] ]} in
  let upd := UpdateSQL.mk "t" {[ "age" := "40" ]}
               (Some (mkPredicate "id" OpEq "1")) in
  (RowKeyError "id" = TableNotFound (UpdateSQL.table upd) ∧ tables' = tables
   ∧ Py.truthy_list (tables !! UpdateSQL.table upd) = false)
  ∨ ∃ p (done done' : Table) (bad : Row) (rest : Table),
      UpdateSQL.where_lambda upd = Some p
      ∧ RowKeyError "id" = RowKeyError (left p) ∧ bad !! left p = None
      ∧ tables !! UpdateSQL.table upd = Some (done ++ bad :: rest)
      ∧ tables' = <[UpdateSQL.table upd := done' ++ bad :: rest]> tables
      ∧ Forall2
          (λ row row',
             (satisfies (UpdateSQL.where_lambda upd) row true
              ∧ assigned (UpdateSQL.assignments upd) row row')
             ∨ (satisfies (UpdateSQL.where_lambda upd) row false
                ∧ row' = row))
          done done'.
Proof.
  intros r1 r2 r3 tables tables' upd.
  apply (update_failure_is_partial tables tables' upd (RowKeyError "id")).
  vm_compute. reflexivity.
Defined.

Module FrameFacts.

Lemma select_store (tables : Tables) query :
  rewrites_own_table (SelectSQL.table query) tables
    (ToyDB._execute_select query tables).2.
Proof.
  destruct (SelectSQL.where_lambda query) as [p|] eqn:Hwhere.
  { left. apply select_keeps_store. left. by rewrite Hwhere. }
  destruct (Py.truthy_str (SelectSQL.orderby query)) eqn:Horder.
  2: { left. apply select_keeps_store. by right. }
  destruct (tables !! SelectSQL.table query) as [[|row rows]|] eqn:Htable.
  - left. by rewrite select_not_truthy by (by rewrite Htable).
  - destruct (SelectSQL.orderby query) as [[|c col]|] eqn:Hcol; try done.
    destruct (Py.sort (λ r, getitem r (String c col)) (row :: rows))
      as [e|sorted] eqn:Hsort.
    + left. unfold ToyDB._execute_select. exec_unfold.
      rewrite Htable, Hwhere, Hcol.
      cbn -[Py.sort]. rewrite Htable. cbn -[Py.sort]. by rewrite Hsort.
    + right. exists sorted. split; [by rewrite Htable|].
      by eapply select_sorts_store.
  - left. by rewrite select_not_truthy by (by rewrite Htable).
Qed.

Lemma insert_store (tables : Tables) query :
  rewrites_own_table (InsertSQL.table query) tables
    (ToyDB._execute_insert query tables).2.
Proof.
  unfold ToyDB._execute_insert. exec_unfold.
  destruct (tables !! InsertSQL.table query) as [rows|] eqn:Htable;
    [|by left].
  destruct (Py.zip_strict _ _); simpl; [by left|].
  right. eexists. split; [by rewrite Htable|done].
Qed.

Lemma update_store (tables : Tables) query :
  rewrites_own_table (UpdateSQL.table query) tables
    (ToyDB._execute_update query tables).2.
Proof.
  unfold ToyDB._execute_update. exec_unfold.
  destruct (tables !! UpdateSQL.table query) as [[|row rows]|] eqn:Htable;
    try by left.
  change (default [] (Some (row :: rows))) with (row :: rows).
  cbn [Py.truthy_list negb].
  destruct (ToyDB.update_loop _ _ (row :: rows)) as [[e|] rows'];
    right; exists rows'; (split; [by rewrite Htable|done]).
Qed.

Lemma delete_store (tables : Tables) query :
  rewrites_own_table (DeleteSQL.table query) tables
    (ToyDB._execute_delete query tables).2.
Proof.
  unfold ToyDB._execute_delete. exec_unfold.
  destruct (tables !! DeleteSQL.table query) as [[|row rows]|] eqn:Htable;
    try by left.
  change (default [] (Some (row :: rows))) with (row :: rows).
  cbn [Py.truthy_list negb].
  destruct (Py.filter _ (row :: rows)) as [|kept]; [by left|].
  right. exists kept. split; [by rewrite Htable|done].
Qed.

Lemma execute_store (tables : Tables) parsed :
  rewrites_own_table (table_of parsed) tables
    (ToyDB.execute parsed tables).2.
Proof.
  destruct parsed as [q|q|q|q]; simpl; unfold mbind, exec_bind, Exec.bind.
  - pose proof (select_store tables q) as H.
    by destruct (ToyDB._execute_select q tables) as [[|] ?].
  - pose proof (insert_store tables q) as H.
    by destruct (ToyDB._execute_insert q tables) as [[|] ?].
  - pose proof (update_store tables q) as H.
    by destruct (ToyDB._execute_update q tables) as [[|] ?].
  - pose proof (delete_store tables q) as H.
    by destruct (ToyDB._execute_delete q tables) as [[|] ?].
Qed.

End FrameFacts.

(** X4.  Whatever a statement does, and whether it succeeds or fails, it
    leaves every table other than the one it names exactly as it was,
    and the store has the same table names afterwards: no statement
    creates or drops a table. *)
Theorem execute_touches_only_its_table (tables : Tables) parsed :
  dom (ToyDB.execute parsed tables).2 = dom tables
  ∧ ∀ other, other ≠ table_of parsed →
      (ToyDB.execute parsed tables).2 !! other = tables !! other.
Proof.
  destruct (FrameFacts.execute_store tables parsed)
    as [->|(rows & Hsome & ->)]; [done|].
  split.
  - rewrite dom_insert_L. apply elem_of_dom in Hsome.
    apply (anti_symm (⊆)); [|apply union_subseteq_r].
    apply union_least; [|done]. by apply singleton_subseteq_l.
  - intros other Hne. by rewrite lookup_insert_ne.
Qed.

(** X5.  A statement on a table name that the store does not have fails
    with the table-not-found error for that name, whichever of the four
    kinds it is, and leaves the store as it was. *)
Theorem execute_on_absent_table (tables : Tables) parsed :
  tables !! table_of parsed = None →
  ToyDB.execute parsed tables = (inl (TableNotFound (table_of parsed)), tables).
Proof.
  intros H. destruct parsed as [q|q|q|q]; simpl in *;
    unfold mbind, exec_bind, Exec.bind.
  - by rewrite select_not_truthy by (by rewrite H).
  - unfold ToyDB._execute_insert. exec_unfold. by rewrite H.
  - unfold ToyDB._execute_update. exec_unfold. by rewrite H.
  - unfold ToyDB._execute_delete. exec_unfold. by rewrite H.
Qed.

Lemma execute_on_absent_table_witness :
  ToyDB.execute (Insert (InsertSQL.mk "ghost" ["a"] ["1"])) {[ "t" := [] ]}
  = (inl (TableNotFound "ghost"), {[ "t" := [] ]}).
Proof.
  apply (execute_on_absent_table {[ "t" := [] ]}
           (Insert (InsertSQL.mk "ghost" ["a"] ["1"]))).
  reflexivity.
Defined.

Module SelectFacts.

(** The outcome of a Select that has neither WHERE nor ORDER BY. *)
Lemma select_plain (tables : Tables) query row rows :
  SelectSQL.where_lambda query = None →
  Py.truthy_str (SelectSQL.orderby query) = false →
  tables !! SelectSQL.table query = Some (row :: rows) →
  ToyDB._execute_select query tables
  = (if decide (SelectSQL.columns query ≠ ["*"])
     then Py.comprehension (ToyDB.project (SelectSQL.columns query))
                           (row :: rows)
     else inr (row :: rows), tables).
Proof.
  intros Hwhere Horder Htable. unfold ToyDB._execute_select. exec_unfold.
  rewrite Htable, Hwhere, Horder. cbn -[Py.comprehension].
  destruct (decide _); cbn -[Py.comprehension]; rewrite Htable;
    cbn -[Py.comprehension]; [|done].
  by destruct (Py.comprehension _ _).
Qed.

(** The outcome of a Select with ORDER BY and without WHERE. *)
Lemma select_sorted (tables : Tables) query col row rows :
  SelectSQL.where_lambda query = None →
  SelectSQL.orderby query = Some col → col ≠ EmptyString →
  tables !! SelectSQL.table query = Some (row :: rows) →
  ToyDB._execute_select query tables
  = match Py.sort (λ r, getitem r col) (row :: rows) with
    | inl e => (inl e, tables)
    | inr sorted =>
        (if decide (SelectSQL.columns query ≠ ["*"])
         then Py.comprehension (ToyDB.project (SelectSQL.columns query)) sorted
         else inr sorted,
         <[SelectSQL.table query := sorted]> tables)
    end.
Proof.
  intros Hwhere Horder Hcol Htable. unfold ToyDB._execute_select. exec_unfold.
  rewrite Htable, Hwhere, Horder. destruct col as [|c col]; [done|].
  cbn -[Py.sort Py.comprehension]. rewrite Htable.
  cbn -[Py.sort Py.comprehension].
  destruct (Py.sort _ _) as [e|sorted]; [done|].
  exec_unfold. cbn -[Py.comprehension].
  destruct (decide _); cbn -[Py.comprehension];
    rewrite lookup_insert_eq; cbn -[Py.comprehension]; [|done].
  by destruct (Py.comprehension _ _).
Qed.

(** Inserting in front of a list that starts with no smaller key. *)
Lemma insert_by_key_sorted_front (x : keyed) l :
  Forall (key_le x) l → Py.insert_by_key x l = x :: l.
Proof.
  destruct 1 as [|y l Hy _]; simpl; [done|].
  destruct (String.ltb y.1 x.1) eqn:E; [|done].
  exfalso. unfold key_le, String.le, String.leb, String.ltb in *.
  rewrite (String.compare_antisym x.1 y.1) in Hy.
  by destruct (String.compare y.1 x.1).
Qed.

Lemma sort_decorated_sorted_id (l : list keyed) :
  StronglySorted key_le l → Py.sort_decorated l = l.
Proof.
  induction 1 as [|x l Hl IH Hx]; simpl; [done|].
  rewrite IH. by apply insert_by_key_sorted_front.
Qed.

Lemma comprehension_Forall2 {A B} (f : A → Error + B) xs ys :
  Forall2 (λ x y, f x = inr y) xs ys → Py.comprehension f xs = inr ys.
Proof.
  induction 1 as [|x y xs ys Hxy _ IH]; simpl; [done|].
  by rewrite Hxy, IH.
Qed.

(** Sorting what [list.sort] has sorted changes nothing. *)
Lemma sort_sort (rows sorted : list (gmap string string)) col :
  Py.sort (λ row, getitem row col) rows = inr sorted →
  Py.sort (λ row, getitem row col) sorted = inr sorted.
Proof.
  unfold Py.sort.
  destruct (Py.comprehension _ rows) as [|keys] eqn:E; simpl; [done|].
  intros [= <-]. apply comprehension_getitem in E.
  assert (length keys = length rows) as Hlen
    by (symmetry; by eapply Forall2_length).
  set (dec := Py.sort_decorated (zip keys rows)).
  assert (Forall (λ x : keyed, x.2 !! col = Some x.1) dec) as Hdec.
  { unfold dec. rewrite sort_decorated_perm.
    clear Hlen. induction E; simpl; constructor; auto. }
  rewrite (comprehension_Forall2 _ dec.*2 dec.*1).
  - simpl. unfold mret, result_ret. f_equal.
    rewrite zip_fst_snd. f_equal.
    apply sort_decorated_sorted_id, sort_decorated_sorted.
  - clear -Hdec. induction Hdec as [|x l Hx _ IH]; simpl; constructor; [|done].
    unfold getitem. by rewrite Hx.
Qed.

Lemma sort_nonempty (rows sorted : list (gmap string string)) key :
  Py.sort key rows = inr sorted → rows ≠ [] → sorted ≠ [].
Proof.
  unfold Py.sort.
  destruct (Py.comprehension _ rows) as [|keys] eqn:E; simpl; [done|].
  intros [= <-] Hne Hnil. apply comprehension_inr, Forall2_length in E.
  apply (f_equal length) in Hnil. rewrite length_fmap in Hnil.
  rewrite (Permutation_length (sort_decorated_perm _)) in Hnil.
  rewrite length_zip in Hnil. destruct rows; simpl in *; [done|lia].
Qed.

End SelectFacts.

(** X6.  Round trip.  After an Insert with as many values as columns
    into a table of the store, [SELECT * FROM] that table succeeds,
    leaves the store alone and returns the rows the table had, in
    their order, followed by the inserted row. *)
Theorem insert_then_select_all (tables : Tables) ins rows :
  tables !! InsertSQL.table ins = Some rows →
  length (InsertSQL.columns ins) = length (InsertSQL.values ins) →
  let tables' := (ToyDB._execute_insert ins tables).2 in
  ToyDB._execute_select (SelectSQL.mk ["*"] (InsertSQL.table ins) None None)
                        tables'
  = (inr (rows ++ [Py.dict (zip (InsertSQL.columns ins)
                                (InsertSQL.values ins))]), tables').
Proof.
  intros Htable Hlen tables'. subst tables'.
  rewrite (insert_append tables ins rows) by done. cbn [snd].
  set (row := Py.dict _).
  destruct (rows ++ [row]) as [|r rs] eqn:Happ.
  { by destruct rows. }
  erewrite SelectFacts.select_plain; try done.
  simpl. by rewrite lookup_insert_eq.
Qed.

Lemma insert_then_select_all_witness :
  let tables : Tables := {[ "users" := [] ]} in
  let ins := InsertSQL.mk "users" ["id"; "name"] ["1"; "'Ada'"] in
  let tables' := (ToyDB._execute_insert ins tables).2 in
  ToyDB._execute_select (SelectSQL.mk ["*"] "users" None None) tables'
  = (inr ([] ++ [Py.dict (zip ["id"; "name"] ["1"; "'Ada'"])]), tables').
Proof.
  exact (insert_then_select_all {[ "users" := [] ]}
           (InsertSQL.mk "users" ["id"; "name"] ["1"; "'Ada'"]) []
           eq_refl eq_refl).
Defined.

(** X7.  A Select that has succeeded gives the same rows again, and
    leaves the store as it is, when it is run on the store it left. *)
Theorem select_again_is_same (tables tables' : Tables) sel result :
  ToyDB._execute_select sel tables = (inr result, tables') →
  ToyDB._execute_select sel tables' = (inr result, tables').
Proof.
  intros H.
  destruct (SelectSQL.where_lambda sel) as [p|] eqn:Hwhere.
  { assert (tables' = tables) as ->; [|done].
    rewrite <- (select_keeps_store tables sel); [by rewrite H|].
    left. by rewrite Hwhere. }
  destruct (Py.truthy_str (SelectSQL.orderby sel)) eqn:Horder.
  2: { assert (tables' = tables) as ->; [|done].
       rewrite <- (select_keeps_store tables sel); [by rewrite H|].
       by right. }
  destruct (SelectSQL.orderby sel) as [[|c col]|] eqn:Hcol; try done.
  destruct (tables !! SelectSQL.table sel) as [[|row rows]|] eqn:Htable.
  - by rewrite select_not_truthy in H by (by rewrite Htable).
  - rewrite (SelectFacts.select_sorted tables sel (String c col) row rows)
      in H by done.
    destruct (Py.sort _ (row :: rows)) as [|sorted] eqn:Hsort; [done|].
    injection H as Hresult <-.
    destruct sorted as [|s more] eqn:Hsorted.
    { by apply SelectFacts.sort_nonempty in Hsort. }
    rewrite (SelectFacts.select_sorted _ sel (String c col) s more);
      try done; [|by rewrite lookup_insert_eq].
    rewrite (SelectFacts.sort_sort _ _ _ Hsort).
    by rewrite Hresult, insert_insert_eq.
  - by rewrite select_not_truthy in H by (by rewrite Htable).
Qed.

Lemma select_again_is_same_witness :
  let r (k n : string) : Row := {[ "k" := k; "n" := n ]} in
  let tables : Tables := {[ "t" := [r "b" "1"; r "a" "2"; r "b" "3"] ]} in
  let tables' : Tables := {[ "t" := [r "a" "2"; r "b" "1"; r "b" "3"] ]} in
  let sel := SelectSQL.mk ["n"] "t" None (Some "k") in
  ToyDB._execute_select sel tables'
  = (inr [ {[ "n" := "2" ]}; {[ "n" := "1" ]}; {[ "n" := "3" ]} ], tables').
Proof.
  intros r tables tables' sel.
  apply (select_again_is_same tables tables' sel).
  vm_compute. reflexivity.
Defined.

Module ProjectFacts.

Lemma project_pairs columns (row out : gmap string string) :
  ToyDB.project columns row = inr out →
  ∃ pairs, out = Py.dict pairs ∧ pairs.*1 = columns.
Proof.
  unfold ToyDB.project.
  destruct (Py.comprehension _ columns) as [|pairs] eqn:E; simpl; [done|].
  intros [= <-]. exists pairs. split; [done|].
  apply comprehension_inr in E.
  induction E as [|c kv cs kvs Hkv _ IH]; [done|].
  rewrite fmap_cons, IH. f_equal.
  unfold getitem in Hkv. destruct (row !! c); simpl in Hkv; [|done].
  by injection Hkv as <-.
Qed.

(** A projected row has the requested columns and no other. *)
Lemma project_dom columns (row out : gmap string string) :
  ToyDB.project columns row = inr out → dom out = list_to_set columns.
Proof.
  intros (pairs & -> & <-)%project_pairs. unfold Py.dict.
  rewrite foldl_put_dom. by rewrite dom_empty_L, (left_id_L ∅ (∪)).
Qed.

Lemma comprehension_inl {A B} (f : A → Error + B) xs e :
  Py.comprehension f xs = inl e → ∃ x, x ∈ xs ∧ f x = inl e.
Proof.
  induction xs as [|x xs IH]; simpl; [done|].
  destruct (f x) as [e'|y] eqn:Hx; simpl.
  - intros [= <-]. exists x. split; [by left|done].
  - destruct (Py.comprehension f xs) as [e'|]; simpl; [|done].
    intros [= <-]. destruct (IH eq_refl) as (x' & ? & ?).
    exists x'. split; [by right|done].
Qed.

Lemma project_inl columns (row : gmap string string) e :
  ToyDB.project columns row = inl e → ∃ col, e = RowKeyError col.
Proof.
  unfold ToyDB.project.
  destruct (Py.comprehension _ columns) as [e'|pairs] eqn:E; simpl; [|done].
  intros [= <-]. apply comprehension_inl in E as (c & _ & Hc).
  unfold getitem in Hc. destruct (row !! c); simpl in Hc; [done|].
  injection Hc as <-. eauto.
Qed.

Lemma filter_raises (f : gmap string string → Error + bool) rows e :
  Py.filter f rows = inl e → ∃ row, row ∈ rows ∧ f row = inl e.
Proof.
  induction rows as [|row rows IH]; simpl; [done|].
  destruct (f row) as [e'|b] eqn:Hrow; simpl.
  - intros [= <-]. exists row. split; [by left|done].
  - destruct (Py.filter f rows) as [e'|]; simpl; [|done].
    intros [= <-]. destruct (IH eq_refl) as (row' & ? & ?).
    exists row'. split; [by right|done].
Qed.

Lemma sort_inl (rows : list (gmap string string)) col e :
  Py.sort (λ row, getitem row col) rows = inl e → e = RowKeyError col.
Proof.
  unfold Py.sort.
  destruct (Py.comprehension _ rows) as [e'|] eqn:E; simpl; [|done].
  intros [= <-]. apply comprehension_inl in E as (row & _ & Hrow).
  unfold getitem in Hrow. destruct (row !! col); [done|]. by injection Hrow.
Qed.

End ProjectFacts.

(** X8.  A Select without ORDER BY that succeeds leaves the store as it
    was and returns, in table order, the rows of the table on which the
    predicate is true (all rows without WHERE): the rows themselves for
    [*], and otherwise for each of them a new row that has exactly the
    requested columns, with the values of the row. *)
Theorem select_without_order_by (tables tables' : Tables) sel result :
  Py.truthy_str (SelectSQL.orderby sel) = false →
  ToyDB._execute_select sel tables = (inr result, tables') →
  tables' = tables
  ∧ ∃ rows kept : Table,
      tables !! SelectSQL.table sel = Some rows
      ∧ rows ≠ []
      ∧ kept = match SelectSQL.where_lambda sel with
               | None => rows
               | Some p => filter (λ row : Row, call p row = inr true) rows
               end
      ∧ if decide (SelectSQL.columns sel = ["*"]) then result = kept
        else Forall2
               (λ row out : Row,
                  dom out = list_to_set (SelectSQL.columns sel)
                  ∧ ∀ col, col ∈ SelectSQL.columns sel →
                      out !! col = row !! col)
               kept result.
Proof.
  intros Horder H.
  assert (tables' = tables) as ->.
  { rewrite <- (select_keeps_store tables sel); [by rewrite H|]. by right. }
  split; [done|]. revert H. unfold ToyDB._execute_select.
  intros (table & t0 & [= <- <-] & H)%bind_inr.
  destruct (tables !! SelectSQL.table sel) as [[|row rows]|] eqn:Htable;
    try done.
  cbn [Py.truthy_list negb] in H.
  apply bind_inr in H as (r1 & t1 & Hfilter & H).
  apply bind_inr in H as (r2 & t2 & Hsort & H).
  apply bind_inr in H as (r3 & t3 & Hproject & H).
  apply read_inr in H as [-> ->].
  rewrite Horder in Hsort. apply ret_inr in Hsort as [-> ->].
  exists (row :: rows), (Ref.rows_of r1 t1). split_and!; try done.
  - destruct (SelectSQL.where_lambda sel) as [p|].
    + apply bind_inr in Hfilter as (rs & t & [-> ->]%read_inr & Hfilter).
      apply bind_inr in Hfilter as (kept & t & [Hkept ->]%lift_inr & Hfilter).
      apply ret_inr in Hfilter as [-> ->]. simpl in *. rewrite Htable in Hkept.
      by apply filter_inr in Hkept as [-> _].
    + apply ret_inr in Hfilter as [-> ->]. simpl. by rewrite Htable.
  - destruct (decide (SelectSQL.columns sel ≠ ["*"])) as [Hne|Heq].
    + rewrite decide_False by done.
      apply bind_inr in Hproject as (rs & t & [-> ->]%read_inr & Hproject).
      apply bind_inr in Hproject
        as (projected & t & [Hprojected ->]%lift_inr & Hproject).
      apply ret_inr in Hproject as [-> ->]. simpl.
      apply comprehension_inr in Hprojected.
      eapply Forall2_impl; [done|]. intros r out Hout. simpl in Hout. split.
      * by eapply ProjectFacts.project_dom.
      * intros col Hcol. by eapply project_lookup.
    + apply ret_inr in Hproject as [-> ->].
      by rewrite decide_True by (by apply dec_stable).
Qed.

Lemma select_without_order_by_witness :
  let tables : Tables :=
    {[ "t" := [ {[ "a" := "1"; "b" := "x" ]}; {[ "a" := "2"; "b" := "y" ]} ] ]} in
  let sel := SelectSQL.mk ["b"] "t" (Some (mkPredicate "a" OpGt "1")) None in
  let result : Table := [ {[ "b" := "y" ]} ] in
  tables = tables
  ∧ ∃ rows kept : Table,
      tables !! SelectSQL.table sel = Some rows
      ∧ rows ≠ []
      ∧ kept = match SelectSQL.where_lambda sel with
               | None => rows
               | Some p => filter (λ row : Row, call p row = inr true) rows
               end
      ∧ if decide (SelectSQL.columns sel = ["*"]) then result = kept
        else Forall2
               (λ row out : Row,
                  dom out = list_to_set (SelectSQL.columns sel)
                  ∧ ∀ col, col ∈ SelectSQL.columns sel →
                      out !! col = row !! col)
               kept result.
Proof.
  intros tables sel result.
  apply (select_without_order_by tables tables sel result); [reflexivity|].
  vm_compute. reflexivity.
Defined.

Module ErrorFacts.

(** How a statement can fail, and what the store is then. *)
Lemma execute_inl (tables tables' : Tables) parsed e :
  ToyDB.execute parsed tables = (inl e, tables') →
  (e = TableNotFound (table_of parsed) ∧ tables' = tables)
  ∨ (e = ColumnValueMismatch ∧ tables' = tables ∧ ∃ q, parsed = Insert q)
  ∨ (∃ col, e = RowKeyError col ∧ (∀ q, parsed ≠ Insert q)
            ∧ ((∃ q, parsed = Delete q) → tables' = tables)).
Proof.
  destruct parsed as [q|q|q|q]; simpl; unfold mbind, exec_bind, Exec.bind.
  - destruct (ToyDB._execute_select q tables) as [[e'|rows] t] eqn:H; [|done].
    intros [= <- <-]. revert H. unfold ToyDB._execute_select. exec_unfold.
    destruct (Py.truthy_list (tables !! SelectSQL.table q));
      cbn [negb]; [|intros [= <- <-]; by left].
    intros H. right. right.
    assert (∃ col, e' = RowKeyError col) as [col ->];
      [|exists col; split_and!; [done..|by intros [? [=]]]].
    destruct (SelectSQL.where_lambda q) as [p|].
    + destruct (Py.filter _ _) as [e1|kept] eqn:Hkept.
      { injection H as <- _.
        apply ProjectFacts.filter_raises in Hkept as (r & _ & [-> _]%call_inl).
        eauto. }
      cbn [Ref.rows_of] in H.
      destruct (Py.truthy_str _).
      * destruct (Py.sort _ kept) as [e2|sorted] eqn:Hsort.
        { injection H as <- _. apply ProjectFacts.sort_inl in Hsort. eauto. }
        simpl in H. destruct (decide _); [|done]. simpl in H.
        destruct (Py.comprehension _ sorted) as [e3|] eqn:Hp; [|done].
        injection H as <- _.
        apply ProjectFacts.comprehension_inl in Hp as (r & _ & Hr).
        by eapply ProjectFacts.project_inl.
      * simpl in H. destruct (decide _); [|done]. simpl in H.
        destruct (Py.comprehension _ kept) as [e3|] eqn:Hp; [|done].
        injection H as <- _.
        apply ProjectFacts.comprehension_inl in Hp as (r & _ & Hr).
        by eapply ProjectFacts.project_inl.
    + cbn [Ref.rows_of] in H.
      destruct (Py.truthy_str _).
      * destruct (Py.sort _ _) as [e2|sorted] eqn:Hsort.
        { injection H as <- _. apply ProjectFacts.sort_inl in Hsort. eauto. }
        exec_unfold. simpl in H. destruct (decide _); [|done]. simpl in H.
        destruct (Py.comprehension _ _) as [e3|] eqn:Hp; [|done].
        injection H as <- _.
        apply ProjectFacts.comprehension_inl in Hp as (r & _ & Hr).
        by eapply ProjectFacts.project_inl.
      * simpl in H. destruct (decide _); [|done]. simpl in H.
        destruct (Py.comprehension _ _) as [e3|] eqn:Hp; [|done].
        injection H as <- _.
        apply ProjectFacts.comprehension_inl in Hp as (r & _ & Hr).
        by eapply ProjectFacts.project_inl.
  - destruct (ToyDB._execute_insert q tables) as [[e'|[]] t] eqn:H; [|done].
    intros [= <- <-]. revert H. unfold ToyDB._execute_insert. exec_unfold.
    destruct (tables !! InsertSQL.table q) as [rows|];
      [|intros [= <- <-]; by left].
    destruct (decide (length (InsertSQL.columns q)
                      = length (InsertSQL.values q))) as [Hlen|Hlen].
    + by rewrite zip_strict_same_length.
    + rewrite zip_strict_mismatch by done.
      intros [= <- <-]. right. left. eauto.
  - destruct (ToyDB._execute_update q tables) as [[e'|[]] t] eqn:H; [|done].
    intros [= <- <-].
    revert H. unfold ToyDB._execute_update. exec_unfold.
    destruct (Py.truthy_list (tables !! UpdateSQL.table q));
      cbn [negb]; [|intros [= <- <-]; by left].
    destruct (ToyDB.update_loop _ _ _) as [[e1|] rows'] eqn:Hloop;
      simpl; [|done].
    intros [= <- _]. right. right.
    apply UpdateFacts.update_loop_raises in Hloop
      as (_ & _ & bad & _ & _ & _ & Hbad & _).
    apply UpdateFacts.update_skips_inl in Hbad as (p & _ & -> & _).
    eexists. split_and!; [done..|by intros [? [=]]].
  - destruct (ToyDB._execute_delete q tables) as [[e'|[]] t] eqn:H; [|done].
    intros [= <- <-]. revert H. unfold ToyDB._execute_delete. exec_unfold.
    destruct (Py.truthy_list (tables !! DeleteSQL.table q));
      cbn [negb]; [|intros [= <- <-]; by left].
    destruct (Py.filter _ _) as [e1|kept] eqn:Hkept; [|done].
    intros [= <- <-]. right. right.
    apply ProjectFacts.filter_raises in Hkept as (r & _ & Hr).
    unfold ToyDB.delete_keeps in Hr.
    destruct (DeleteSQL.where_lambda q) as [p|]; [|done].
    destruct (call p r) as [e2|] eqn:Hcall; [|done].
    injection Hr as <-. apply call_inl in Hcall as [-> _].
    eexists. by split_and!.
Qed.

End ErrorFacts.

(** X9.  The errors of the engine.  A statement that fails does so with
    the table-not-found error for its table, with the mismatch error
    (an Insert only) or with a key error (never an Insert); a failing
    Insert or Delete leaves the store as it was. *)
Theorem execute_errors (tables tables' : Tables) parsed e :
  ToyDB.execute parsed tables = (inl e, tables') →
  match parsed with
  | Insert _ =>
      (e = TableNotFound (table_of parsed) ∨ e = ColumnValueMismatch)
      ∧ tables' = tables
  | Delete _ =>
      (e = TableNotFound (table_of parsed) ∨ ∃ col, e = RowKeyError col)
      ∧ tables' = tables
  | Select _ | Update _ =>
      e = TableNotFound (table_of parsed) ∨ ∃ col, e = RowKeyError col
  end.
Proof.
  intros H. apply ErrorFacts.execute_inl in H
    as [[-> ->]|[(-> & -> & q & ->)|(col & -> & Hins & Hdel)]].
  - destruct parsed; auto.
  - auto.
  - destruct parsed as [q|q|q|q]; eauto.
    + by destruct (Hins q).
    + split; eauto.
Qed.

Lemma execute_errors_witness :
  let tables : Tables := {[ "t" := [ {[ "a" := "1" ]} ] ]} in
  (ColumnValueMismatch = TableNotFound "t"
   ∨ ColumnValueMismatch = ColumnValueMismatch)
  ∧ tables = tables.
Proof.
  intros tables.
  apply (execute_errors tables tables
           (Insert (InsertSQL.mk "t" ["a"; "b"] ["1"])) ColumnValueMismatch).
  vm_compute. reflexivity.
Defined.

(** X10.  Once [create_table] has been called for a name, with whatever
    outcome, calling it again for that name fails with the
    table-exists error and changes nothing, so the rows of the table
    survive. *)
Theorem create_table_again_fails (tables : Tables) name c1 c2 :
  let tables1 := (ToyDB.create_table name c1 tables).2 in
  ToyDB.create_table name c2 tables1 = (inl (TableExists name), tables1).
Proof.
  unfold ToyDB.create_table. exec_unfold.
  destruct (tables !! name) as [rows|] eqn:H; simpl.
  - by rewrite H.
  - by rewrite lookup_insert_eq.
Qed.

(** * Further properties of the predicate compiler *)

Module CompileFacts.
Import ReFacts.

Lemma append_empty_r s : s +:+ EmptyString = s.
Proof.
  induction s as [|c s IH]; [done|].
  change (String c s +:+ EmptyString) with (String c (s +:+ EmptyString)).
  by rewrite IH.
Qed.

Section Greedy.
Context {A : Type}.
Implicit Types (k : string → string → option A) (x : A).

(** A greedy repetition commits to the whole run when the rest of the
    pattern matches behind it. *)
Lemma star_greedy cls run tail k x :
  Text.all cls run = true → Text.head_is cls tail = false →
  k run tail = Some x → Re.star cls (run +:+ tail) k = Some x.
Proof.
  revert k. induction run as [|c run IH]; intros k Hrun Htail Hk.
  - change (EmptyString +:+ tail) with tail.
    destruct tail as [|c tail]; simpl in *; try rewrite Htail; done.
  - change (String c run +:+ tail) with (String c (run +:+ tail)).
    apply andb_prop in Hrun as [Hc Hrun]. simpl. rewrite Hc.
    by rewrite (IH (λ m r, k (String c m) r)).
Qed.

Lemma plus_greedy cls run tail k x :
  run ≠ EmptyString →
  Text.all cls run = true → Text.head_is cls tail = false →
  k run tail = Some x → Re.plus cls (run +:+ tail) k = Some x.
Proof.
  destruct run as [|c run]; [done|]. intros _ Hrun Htail Hk.
  change (String c run +:+ tail) with (String c (run +:+ tail)).
  apply andb_prop in Hrun as [Hc Hrun]. simpl. rewrite Hc.
  by apply star_greedy.
Qed.

End Greedy.

Lemma head_app_nonempty cls s t :
  s ≠ EmptyString → Text.head_is cls (s +:+ t) = Text.head_is cls s.
Proof. by destruct s. Qed.

Lemma head_app_empty cls (t : string) :
  Text.head_is cls (EmptyString +:+ t) = Text.head_is cls t.
Proof. done. Qed.

(** After blanks comes what follows them, when that is no blank. *)
Lemma head_after_run cls cls' run tail :
  Text.all cls run = true →
  (∀ c, cls c = true → cls' c = false) →
  Text.head_is cls' tail = false →
  Text.head_is cls' (run +:+ tail) = false.
Proof.
  intros Hrun Hcls Htail. destruct run as [|c run]; [done|].
  apply andb_prop in Hrun as [Hc _]. simpl. by apply Hcls.
Qed.

Lemma space_not_word c : Text.is_space c = true → Text.is_word c = false.
Proof.
  intros Hs. destruct (Text.is_word c) eqn:Hw; [|done].
  apply word_not_space in Hw. congruence.
Qed.

(** The rest of the pattern behind the operator, on a well-formed
    right operand. *)
Lemma tail_on_operand l o ws lit :
  Text.all Text.is_space ws = true →
  lit ≠ EmptyString → Text.all Text.is_dot lit = true →
  Text.head_is Text.is_space lit = false →
  condition_regex_tail l o (ws +:+ lit) = Some (l, o, lit).
Proof.
  intros Hws Hne Hdot Hhead. unfold condition_regex_tail.
  apply star_greedy; [done..|].
  rewrite <- (append_empty_r lit) at 1.
  by apply plus_greedy.
Qed.

(** The match of the pattern on a well-formed clause. *)
Lemma condition_regex_canonical ident ws1 op ws2 lit :
  is_identifier ident →
  Text.all Text.is_space ws1 = true →
  Text.all Text.is_space ws2 = true →
  op ≠ OpLe → op ≠ OpGe →
  lit ≠ EmptyString → Text.all Text.is_dot lit = true →
  Text.head_is Text.is_space lit = false →
  condition_regex (ident +:+ ws1 +:+ operator_text op +:+ ws2 +:+ lit)
  = Some (ident, operator_text op, lit).
Proof.
  intros [Hne Hident] Hws1 Hws2 Hle Hge Hlit Hdot Hhead.
  assert (Text.head_is Text.is_space (operator_text op +:+ ws2 +:+ lit) = false)
    as Hop_space by (by destruct op).
  assert (Text.head_is Text.is_word (operator_text op +:+ ws2 +:+ lit) = false)
    as Hop_word by (by destruct op).
  unfold condition_regex. apply plus_greedy; try done.
  { apply head_after_run with (cls := Text.is_space); [done| |done].
    apply space_not_word. }
  apply star_greedy; try done.
  change (Re.alt operator_branches (operator_text op +:+ ws2 +:+ lit)
            (condition_regex_tail ident) = Some (ident, operator_text op, lit)).
  pose proof (tail_on_operand ident (operator_text op) ws2 lit
                Hws2 Hlit Hdot Hhead) as Htail.
  unfold operator_branches.
  destruct op; try done; unfold operator_text in *; push_append;
    cbn [Re.alt Text.strip_prefix Ascii.eqb Bool.eqb Re.orelse];
    by rewrite Htail.
Qed.

End CompileFacts.

(** * ASCII text *)

Module AsciiFacts.

(** Word characters and blanks are 7-bit codes: an identifier and a run
    of blanks are ASCII text, on which the classes of the model are
    those of Python. *)
Lemma word_is_ascii s :
  Text.all Text.is_word s = true → Text.is_ascii s = true.
Proof.
  unfold Text.is_ascii. induction s as [|c s IH]; [done|]. simpl.
  intros [Hc Hs]%andb_prop. rewrite IH by done. rewrite andb_true_r.
  clear -Hc. destruct c as [[] [] [] [] [] [] [] []]; by vm_compute in Hc |- *.
Qed.

Lemma space_is_ascii s :
  Text.all Text.is_space s = true → Text.is_ascii s = true.
Proof.
  unfold Text.is_ascii. induction s as [|c s IH]; [done|]. simpl.
  intros [Hc Hs]%andb_prop. rewrite IH by done. rewrite andb_true_r.
  clear -Hc. destruct c as [[] [] [] [] [] [] [] []]; by vm_compute in Hc |- *.
Qed.

Lemma identifier_is_ascii s : is_identifier s → Text.is_ascii s = true.
Proof. intros [_ Hword]. by apply word_is_ascii. Qed.

Lemma is_ascii_app s t :
  Text.is_ascii (s +:+ t) = Text.is_ascii s && Text.is_ascii t.
Proof.
  unfold Text.is_ascii. induction s as [|c s IH]; [done|].
  change (String c s +:+ t) with (String c (s +:+ t)). simpl.
  by rewrite IH, andb_assoc.
Qed.

End AsciiFacts.

(** X11.  An ASCII WHERE clause made of an identifier, optional blanks,
    one of the operators [=], [!=], [<], [>], optional blanks and a
    right operand that is not empty, holds no line feed and does not
    start with a blank compiles to the predicate with that identifier,
    that operator and the operand stripped of trailing blanks. *)
Theorem parse_where_compiles ident ws1 op ws2 lit :
  is_identifier ident →
  Text.all Text.is_space ws1 = true →
  Text.all Text.is_space ws2 = true →
  op ≠ OpLe → op ≠ OpGe →
  Text.is_ascii lit = true →
  lit ≠ EmptyString → Text.all Text.is_dot lit = true →
  Text.head_is Text.is_space lit = false →
  _parse_where (ident +:+ ws1 +:+ operator_text op +:+ ws2 +:+ lit)
  = inr (mkPredicate ident op (Text.strip lit)).
Proof.
  intros. unfold _parse_where.
  rewrite CompileFacts.condition_regex_canonical by done.
  by destruct op.
Qed.

Lemma parse_where_compiles_witness :
  _parse_where ("age" +:+ " " +:+ operator_text OpGt +:+ " " +:+ "30  ")
  = inr (mkPredicate "age" OpGt (Text.strip "30  ")).
Proof.
  apply (parse_where_compiles "age" " " OpGt " " "30  ");
    try done; by split.
Defined.

(** * Properties of the statement parser *)

Module ParserFacts.
Import ReFacts ReMore.

Section Sound.
Context {A : Type}.
Implicit Types (k : string → string → option A) (x : A).

(** A result of a repetition comes from its continuation, entered
    behind a run of characters of the class. *)
Lemma star_sound_run cls s k x :
  Re.star cls s k = Some x →
  ∃ m r, s = m +:+ r ∧ Text.all cls m = true ∧ k m r = Some x.
Proof.
  revert k. induction s as [|c s IH]; intros k; simpl.
  - intros H. by exists EmptyString, EmptyString.
  - destruct (cls c) eqn:Hc.
    + intros [H|[_ H]]%orelse_Some.
      * apply IH in H as (m & r & -> & Hm & H).
        exists (String c m), r. split_and!; [done| |done].
        simpl. by rewrite Hc.
      * by exists EmptyString, (String c s).
    + intros H. by exists EmptyString, (String c s).
Qed.

Lemma plus_sound_run cls s k x :
  Re.plus cls s k = Some x →
  ∃ m r, s = m +:+ r ∧ m ≠ EmptyString ∧ Text.all cls m = true
         ∧ k m r = Some x.
Proof.
  destruct s as [|c s]; simpl; [done|].
  destruct (cls c) eqn:Hc; [|done].
  intros (m & r & -> & Hm & H)%star_sound_run.
  exists (String c m), r. split_and!; [done..| |done].
  simpl. by rewrite Hc.
Qed.

Lemma lazy_star_sound cls s k x :
  lazy_star cls s k = Some x → ∃ m r, k m r = Some x.
Proof.
  revert k. induction s as [|c s IH]; intros k; simpl; [eauto|].
  intros [H|[_ H]]%orelse_Some; [eauto|].
  destruct (cls c); [|done]. apply IH in H as (m & r & H). eauto.
Qed.

Lemma lazy_plus_sound cls s k x :
  lazy_plus cls s k = Some x →
  ∃ m r, m ≠ EmptyString ∧ k m r = Some x.
Proof.
  destruct s as [|c s]; simpl; [done|].
  destruct (cls c); [|done].
  intros (m & r & H)%lazy_star_sound. by exists (String c m), r.
Qed.

Lemma opt_group_sound (P : string → Prop) g s
    (k' : option string → string → option A) x :
  (∀ k s x, g s k = Some x → ∃ m r, P m ∧ k m r = Some x) →
  opt_group g s k' = Some x →
  ∃ o r, (∀ m, o = Some m → P m) ∧ k' o r = Some x.
Proof.
  intros Hg. unfold opt_group. intros [H|[_ H]]%orelse_Some.
  - apply Hg in H as (m & r & Hm & H). exists (Some m), r.
    split; [|done]. by intros ? [= <-].
  - exists None, s. by split.
Qed.

End Sound.

Section SoundUnit.
Context {A : Type}.
Implicit Types (k : string → option A) (x : A).

Lemma spaces_sound s k x : spaces s k = Some x → ∃ r, k r = Some x.
Proof. unfold spaces. intros (_ & r & H)%star_sound. eauto. Qed.

Lemma spaces1_sound s k x : spaces1 s k = Some x → ∃ r, k r = Some x.
Proof. unfold spaces1. intros (_ & r & H)%plus_sound. eauto. Qed.

Lemma literal_ci_sound l s k x :
  literal_ci l s k = Some x → ∃ r, k r = Some x.
Proof.
  revert s. induction l as [|a l IH]; intros s; simpl; [eauto|].
  destruct s as [|b s]; [done|]. destruct (Ascii.eqb _ _); [|done]. apply IH.
Qed.

Lemma char_sound c s k x : char c s k = Some x → ∃ r, k r = Some x.
Proof.
  destruct s as [|b s]; simpl; [done|]. destruct (Ascii.eqb c b); [|done]. eauto.
Qed.

Lemma opt_char_sound c s k x : opt_char c s k = Some x → ∃ r, k r = Some x.
Proof.
  unfold opt_char. intros [H|[_ H]]%orelse_Some; [|eauto].
  by apply char_sound in H.
Qed.

Lemma eos_sound s (y : option A) x : eos s y = Some x → y = Some x.
Proof.
  destruct s as [|c [|]]; simpl; try done. by destruct (_ =? _)%nat.
Qed.

Lemma statement_end_sound s (y : option A) x :
  statement_end s y = Some x → y = Some x.
Proof.
  unfold statement_end.
  intros (? & (? & (? & H%eos_sound)%spaces_sound)%opt_char_sound)%spaces_sound.
  done.
Qed.

End SoundUnit.

(** Peel the keyword skeleton of a pattern off a successful match. *)
Ltac skeleton H :=
  repeat match type of H with
  | spaces _ _ = _ => apply spaces_sound in H as [? H]
  | spaces1 _ _ = _ => apply spaces1_sound in H as [? H]
  | literal_ci _ _ _ = _ => apply literal_ci_sound in H as [? H]
  | char _ _ _ = _ => apply char_sound in H as [? H]
  end.

Lemma where_group_sound {A} s (k : string → string → option A) x :
  ToySQLParser.where_group s k = Some x →
  ∃ m r, m ≠ EmptyString ∧ k m r = Some x.
Proof.
  unfold ToySQLParser.where_group. intros H. skeleton H.
  by apply lazy_plus_sound in H.
Qed.

Lemma identifier_sound {A} s (k : string → string → option A) x :
  Re.plus Text.is_word s k = Some x →
  ∃ m r, is_identifier m ∧ k m r = Some x.
Proof.
  intros (m & r & _ & ? & ? & H)%plus_sound_run. by exists m, r.
Qed.

Lemma select_regex_sound query columns table where_ orderby :
  ToySQLParser.select_regex query = Some (columns, table, where_, orderby) →
  is_identifier table
  ∧ (∀ text, where_ = Some text → text ≠ EmptyString)
  ∧ (∀ col, orderby = Some col → is_identifier col).
Proof.
  unfold ToySQLParser.select_regex. intros H. skeleton H.
  apply plus_sound in H as (cols & ? & H). skeleton H.
  apply identifier_sound in H as (t & ? & Ht & H).
  apply (opt_group_sound (λ m, m ≠ EmptyString)) in H as (w & ? & Hw & H);
    [|intros ???; apply where_group_sound].
  apply (opt_group_sound is_identifier) in H as (o & ? & Ho & H).
  - apply statement_end_sound in H. by simplify_eq.
  - intros k s x' Hg. skeleton Hg. by apply identifier_sound in Hg.
Qed.

Lemma insert_regex_sound query table columns values :
  ToySQLParser.insert_regex query = Some (table, columns, values) →
  is_identifier table.
Proof.
  unfold ToySQLParser.insert_regex. intros H. skeleton H.
  apply identifier_sound in H as (t & ? & Ht & H). skeleton H.
  apply plus_sound in H as (cols & ? & H). skeleton H.
  apply lazy_plus_sound in H as (vals & ? & _ & H). skeleton H.
  apply statement_end_sound in H. by simplify_eq.
Qed.

Lemma update_regex_sound query table assignments where_ :
  ToySQLParser.update_regex query = Some (table, assignments, where_) →
  is_identifier table ∧ (∀ text, where_ = Some text → text ≠ EmptyString).
Proof.
  unfold ToySQLParser.update_regex. intros H. skeleton H.
  apply identifier_sound in H as (t & ? & Ht & H). skeleton H.
  apply lazy_plus_sound in H as (a & ? & _ & H).
  apply (opt_group_sound (λ m, m ≠ EmptyString)) in H as (w & ? & Hw & H);
    [|intros ???; apply where_group_sound].
  apply statement_end_sound in H. by simplify_eq.
Qed.

Lemma delete_regex_sound query table where_ :
  ToySQLParser.delete_regex query = Some (table, where_) →
  is_identifier table ∧ (∀ text, where_ = Some text → text ≠ EmptyString).
Proof.
  unfold ToySQLParser.delete_regex. intros H. skeleton H.
  apply identifier_sound in H as (t & ? & Ht & H).
  apply (opt_group_sound (λ m, m ≠ EmptyString)) in H as (w & ? & Hw & H);
    [|intros ???; apply where_group_sound].
  apply statement_end_sound in H. by simplify_eq.
Qed.

(** The left operand of a compiled predicate is an identifier. *)
Lemma parse_where_left condition p :
  _parse_where condition = inr p → is_identifier (left p).
Proof.
  unfold _parse_where.
  destruct (condition_regex condition) as [[[l o] r]|] eqn:E; [|done].
  destruct (select_lambda o); [|done]. intros [= <-]. simpl.
  unfold condition_regex in E.
  apply identifier_sound in E as (m & s1 & Hm & E).
  apply star_sound in E as (_ & s2 & E).
  change (Re.alt operator_branches s2 (condition_regex_tail m) = Some (l, o, r))
    in E.
  assert (∀ bs, Re.alt bs s2 (condition_regex_tail m) = Some (l, o, r) → l = m)
    as Halt.
  { induction bs as [|b bs IH]; simpl; [done|].
    intros [H|[_ H]]%orelse_Some; [|auto].
    destruct (Text.strip_prefix b s2); [|done].
    apply tail_sound in H as [? ?]. congruence. }
  by rewrite (Halt _ E).
Qed.

(** A predicate that [parse] attaches to a statement was compiled from
    some text. *)
Lemma where_lambda_of_Some where_ p :
  ToySQLParser.where_lambda_of where_ = inr (Some p) →
  ∃ text, _parse_where text = inr p.
Proof.
  unfold ToySQLParser.where_lambda_of. destruct (Py.truthy_str where_); [|done].
  destruct (_parse_where _) as [|p'] eqn:E; [done|]. intros [= <-]. eauto.
Qed.

Lemma where_lambda_of_inl where_ e :
  ToySQLParser.where_lambda_of where_ = inl e →
  ∃ text, e = Raised (UnsupportedCondition text).
Proof.
  unfold ToySQLParser.where_lambda_of. destruct (Py.truthy_str where_); [|done].
  destruct (_parse_where _) as [e'|] eqn:E; [|done]. intros [= <-].
  unfold _parse_where in E.
  destruct (condition_regex _) as [[[l o] r]|] eqn:Hre.
  - apply condition_regex_operator in Hre as [->|[->|[->| ->]]]; by simpl in E.
  - injection E as <-. eauto.
Qed.

End ParserFacts.

(** X12.  What the parser hands to the engine.  In every statement that
    [parse] returns for an ASCII query text the table name is an
    identifier (a non-empty run of ASCII letters, digits and
    underscores), so is the ORDER BY column of a Select when there is
    one, and a predicate, when there is one, has an identifier as its
    column and never the operator [<=] or [>=]. *)
Theorem parse_gives_identifiers query parsed :
  Text.is_ascii query = true →
  ToySQLParser.parse query = inr parsed →
  is_identifier (table_of parsed)
  ∧ (∀ q col, parsed = Select q → SelectSQL.orderby q = Some col →
       is_identifier col)
  ∧ (∀ p, where_lambda_in parsed = Some p →
       is_identifier (left p) ∧ operator p ≠ OpLe ∧ operator p ≠ OpGe).
Proof.
  assert (∀ w p, ToySQLParser.where_lambda_of w = inr (Some p) →
            is_identifier (left p) ∧ operator p ≠ OpLe ∧ operator p ≠ OpGe)
    as Hwhere.
  { intros w p [text Hp]%ParserFacts.where_lambda_of_Some. split.
    - by eapply ParserFacts.parse_where_left.
    - by eapply parse_where_never_le_ge. }
  intros _. unfold ToySQLParser.parse. set (text := Text.strip query).
  destruct (PyStr.startswith _ "SELECT").
  { destruct (ToySQLParser.select_regex text) as [[[[cols t] w] o]|] eqn:E;
      [|done].
    apply ParserFacts.select_regex_sound in E as (Ht & _ & Ho).
    destruct (ToySQLParser.where_lambda_of w) as [|wl] eqn:Hw; [done|].
    intros [= <-]. simpl. split_and!; [done| |].
    - intros q col [= <-]. simpl. apply Ho.
    - intros p ->. by eapply Hwhere. }
  destruct (PyStr.startswith _ "INSERT").
  { destruct (ToySQLParser.insert_regex text) as [[[t cols] vals]|] eqn:E;
      [|done].
    apply ParserFacts.insert_regex_sound in E.
    intros [= <-]. by simpl. }
  destruct (PyStr.startswith _ "UPDATE").
  { destruct (ToySQLParser.update_regex text) as [[[t a] w]|] eqn:E; [|done].
    apply ParserFacts.update_regex_sound in E as (Ht & _).
    destruct (ToySQLParser.assignment_pairs _) as [|pairs]; [done|].
    destruct (ToySQLParser.where_lambda_of w) as [|wl] eqn:Hw; [done|].
    intros [= <-]. simpl. split_and!; [done..|].
    intros p ->. by eapply Hwhere. }
  destruct (PyStr.startswith _ "DELETE"); [|done].
  destruct (ToySQLParser.delete_regex text) as [[t w]|] eqn:E; [|done].
  apply ParserFacts.delete_regex_sound in E as (Ht & _).
  destruct (ToySQLParser.where_lambda_of w) as [|wl] eqn:Hw; [done|].
  intros [= <-]. simpl. split_and!; [done..|].
  intros p ->. by eapply Hwhere.
Qed.

Lemma parse_gives_identifiers_witness :
  is_identifier "users"
  ∧ (∀ q col,
       Select (SelectSQL.mk ["*"] "users"
                 (Some (mkPredicate "age" OpGt "= 30")) (Some "name"))
       = Select q →
       SelectSQL.orderby q = Some col → is_identifier col)
  ∧ (∀ p, Some (mkPredicate "age" OpGt "= 30") = Some p →
       is_identifier (left p) ∧ operator p ≠ OpLe ∧ operator p ≠ OpGe).
Proof.
  apply (parse_gives_identifiers
           "select * from users where age >= 30 order by name;"
           (Select (SelectSQL.mk ["*"] "users"
                      (Some (mkPredicate "age" OpGt "= 30")) (Some "name"))));
    vm_compute; reflexivity.
Defined.

Module TextFacts.

Lemma assignment_pairs_inl assignments e :
  ToySQLParser.assignment_pairs assignments = inl e → e = UnpackMismatch.
Proof.
  induction assignments as [|a assignments IH]; simpl; [done|].
  unfold ToySQLParser.assignment_pair at 1.
  destruct (PyStr.split "=" a) as [|k [|v [|]]]; simpl;
    try (by intros [= <-]).
  destruct (ToySQLParser.assignment_pairs assignments); simpl; [|done].
  intros [= <-]. by apply IH.
Qed.

(** What [parse] can raise. *)
Lemma parse_inl query e :
  ToySQLParser.parse query = inl e →
  e = NoKnownOperation ∨ e = UnpackMismatch
  ∨ ∃ text, e = Raised (UnsupportedCondition text).
Proof.
  unfold ToySQLParser.parse. set (text := Text.strip query).
  destruct (PyStr.startswith _ "SELECT").
  { destruct (ToySQLParser.select_regex text) as [[[[cols t] w] o]|];
      [|intros [= <-]; by left].
    destruct (ToySQLParser.where_lambda_of w) as [e'|] eqn:Hw; [|done].
    intros [= <-]. right. right. by eapply ParserFacts.where_lambda_of_inl. }
  destruct (PyStr.startswith _ "INSERT").
  { destruct (ToySQLParser.insert_regex text) as [[[t cols] vals]|];
      [done|intros [= <-]; by left]. }
  destruct (PyStr.startswith _ "UPDATE").
  { destruct (ToySQLParser.update_regex text) as [[[t a] w]|];
      [|intros [= <-]; by left].
    destruct (ToySQLParser.assignment_pairs _) as [e'|pairs] eqn:Hp.
    { intros [= <-]. right. left. by eapply assignment_pairs_inl. }
    destruct (ToySQLParser.where_lambda_of w) as [e'|] eqn:Hw; [|done].
    intros [= <-]. right. right. by eapply ParserFacts.where_lambda_of_inl. }
  destruct (PyStr.startswith _ "DELETE"); [|intros [= <-]; by left].
  destruct (ToySQLParser.delete_regex text) as [[t w]|];
    [|intros [= <-]; by left].
  destruct (ToySQLParser.where_lambda_of w) as [e'|] eqn:Hw; [|done].
  intros [= <-]. right. right. by eapply ParserFacts.where_lambda_of_inl.
Qed.

End TextFacts.

(** X13.  The errors of [execute] on the text of a query.  A query that
    fails does so with the no-known-operation error, the unpacking
    error of an UPDATE assignment, the unsupported-condition error of a
    WHERE clause, or an engine error: table not found, column and value
    mismatch, or a key error.  Unless the error is a key error, the
    store is left exactly as it was. *)
Theorem execute_text_errors (tables tables' : Tables) query e :
  ToyDBText.execute query tables = (inl e, tables') →
  (e = NoKnownOperation ∨ e = UnpackMismatch
   ∨ (∃ text, e = Raised (UnsupportedCondition text))
   ∨ (∃ name, e = Raised (TableNotFound name))
   ∨ e = Raised ColumnValueMismatch
   ∨ ∃ col, e = Raised (RowKeyError col))
  ∧ ((∀ col, e ≠ Raised (RowKeyError col)) → tables' = tables).
Proof.
  unfold ToyDBText.execute.
  destruct (ToySQLParser.parse query) as [e'|parsed] eqn:Hparse.
  - intros [= <- <-]. split; [|done].
    apply TextFacts.parse_inl in Hparse as [->|[->|[text ->]]]; eauto 10.
  - destruct (ToyDB.execute parsed tables) as [[e'|result] t] eqn:Hexec;
      [|done].
    intros [= <- <-].
    apply ErrorFacts.execute_inl in Hexec
      as [[-> ->]|[(-> & -> & _)|(col & -> & _)]].
    + split; [eauto 10|done].
    + split; [eauto 10|done].
    + split; [eauto 10|]. intros Hne. by destruct (Hne col).
Qed.

Lemma execute_text_errors_witness :
  let tables : Tables := {[ "users" := [ {[ "id" := "1" ]} ] ]} in
  (UnpackMismatch = NoKnownOperation ∨ UnpackMismatch = UnpackMismatch
   ∨ (∃ text, UnpackMismatch = Raised (UnsupportedCondition text))
   ∨ (∃ name, UnpackMismatch = Raised (TableNotFound name))
   ∨ UnpackMismatch = Raised ColumnValueMismatch
   ∨ ∃ col, UnpackMismatch = Raised (RowKeyError col))
  ∧ ((∀ col, UnpackMismatch ≠ Raised (RowKeyError col)) → tables = tables).
Proof.
  intros tables.
  apply (execute_text_errors tables tables "UPDATE users SET note=a=b").
  vm_compute. reflexivity.
Defined.

Module CanonicalFacts.
Import ReFacts ReMore CompileFacts.

(** ** [strip] on a text without blanks at its ends *)

Lemma rev_app_rev_app s1 s2 s3 :
  String.rev_app (String.rev_app s1 s2) s3 = String.rev_app s2 (s1 +:+ s3).
Proof.
  revert s2 s3. induction s1 as [|c s1 IH]; intros s2 s3; [done|].
  simpl. rewrite IH. done.
Qed.

Lemma rev_rev s : String.rev (String.rev s) = s.
Proof.
  unfold String.rev. rewrite rev_app_rev_app. simpl. apply append_empty_r.
Qed.

Lemma head_rev_app cls s acc :
  Text.head_is cls (String.rev_app s acc)
  = match s with
    | EmptyString => Text.head_is cls acc
    | _ => last_is cls s
    end.
Proof.
  revert acc. induction s as [|c s IH]; intros acc; [done|].
  simpl. rewrite IH. by destruct s.
Qed.

Lemma drop_while_head cls s :
  Text.head_is cls s = false → Text.drop_while cls s = s.
Proof. destruct s as [|c s]; simpl; [done|]. by intros ->. Qed.

Lemma strip_id s :
  Text.head_is Text.is_space s = false → last_is Text.is_space s = false →
  Text.strip s = s.
Proof.
  intros Hhead Hlast. unfold Text.strip.
  rewrite (drop_while_head _ s) by done.
  rewrite drop_while_head; [apply rev_rev|].
  unfold String.rev. rewrite head_rev_app. by destruct s.
Qed.

Lemma last_is_app cls s t :
  t ≠ EmptyString → last_is cls (s +:+ t) = last_is cls t.
Proof.
  intros Ht. induction s as [|c s IH]; [done|].
  change (String c s +:+ t) with (String c (s +:+ t)). simpl. rewrite IH.
  destruct (s +:+ t) eqn:E; [|done]. by destruct s, t.
Qed.

Lemma all_app cls s t :
  Text.all cls (s +:+ t) = Text.all cls s && Text.all cls t.
Proof.
  induction s as [|c s IH]; [done|].
  change (String c s +:+ t) with (String c (s +:+ t)). simpl.
  by rewrite IH, andb_assoc.
Qed.

Lemma all_last cls s :
  Text.all cls s = true → s ≠ EmptyString → last_is cls s = true.
Proof.
  induction s as [|c s IH]; [done|]. simpl.
  intros [Hc Hs]%andb_prop _. destruct s; [done|]. by apply IH.
Qed.

Lemma app_assoc_str s t u : (s +:+ t) +:+ u = s +:+ t +:+ u.
Proof.
  induction s as [|c s IH]; [done|].
  change (String c s +:+ t) with (String c (s +:+ t)).
  change (String c (s +:+ t) +:+ u) with (String c ((s +:+ t) +:+ u)).
  by rewrite IH.
Qed.

(** ** Pattern pieces on the text of a canonical statement *)

Section Pieces.
Context {A : Type}.

Lemma spaces_none s (k : string → option A) :
  Text.head_is Text.is_space s = false → spaces s k = k s.
Proof. unfold spaces. destruct s as [|c s]; simpl; [done|]. by intros ->. Qed.

Lemma spaces1_one s (k : string → option A) :
  Text.head_is Text.is_space s = false →
  spaces1 (String " " s) k = k s.
Proof. intros Hs. unfold spaces1. simpl. by apply (spaces_none s). Qed.

(** A lazy repetition stops at the first place where the rest of the
    pattern matches. *)
Lemma lazy_star_first cls m0 r0 (k : string → string → option A) x :
  Text.all cls m0 = true →
  (∀ m r, m0 = m +:+ r → r ≠ EmptyString → k m (r +:+ r0) = None) →
  k m0 r0 = Some x →
  lazy_star cls (m0 +:+ r0) k = Some x.
Proof.
  revert k. induction m0 as [|c m0 IH]; intros k Hall Hshort Hk.
  - change (EmptyString +:+ r0) with r0.
    destruct r0; simpl; [done|]. by rewrite Hk.
  - change (String c m0 +:+ r0) with (String c (m0 +:+ r0)).
    apply andb_prop in Hall as [Hc Hall]. simpl. rewrite Hc.
    assert (k EmptyString (String c (m0 +:+ r0)) = None) as ->
      by (by apply (Hshort EmptyString (String c m0))).
    simpl. apply IH; [done| |done].
    intros m r -> Hr. by apply (Hshort (String c m) r).
Qed.

Lemma lazy_plus_first cls m0 r0 (k : string → string → option A) x :
  m0 ≠ EmptyString → Text.all cls m0 = true →
  (∀ m r, m ≠ EmptyString → m0 = m +:+ r → r ≠ EmptyString →
     k m (r +:+ r0) = None) →
  k m0 r0 = Some x →
  lazy_plus cls (m0 +:+ r0) k = Some x.
Proof.
  destruct m0 as [|c m0]; [done|]. intros _ Hall Hshort Hk.
  change (String c m0 +:+ r0) with (String c (m0 +:+ r0)).
  apply andb_prop in Hall as [Hc Hall]. simpl. rewrite Hc.
  apply lazy_star_first; [done| |done].
  intros m r -> Hr. by apply (Hshort (String c m) r).
Qed.

(** [\s*;?\s*$] accepts blanks and semicolons only. *)
Lemma statement_end_all s (y : option A) x :
  statement_end s y = Some x → Text.all is_space_or_semicolon s = true.
Proof.
  assert (∀ t, Text.all Text.is_space t = true →
            Text.all is_space_or_semicolon t = true) as Hsp.
  { induction t as [|c t IH]; simpl; [done|].
    intros [Hc Ht]%andb_prop. unfold is_space_or_semicolon at 1.
    by rewrite Hc, IH. }
  unfold statement_end, spaces.
  intros (m1 & r1 & -> & Hm1 & H)%ParserFacts.star_sound_run.
  rewrite all_app, (Hsp m1 Hm1). simpl.
  assert (∀ r, Re.star Text.is_space r (λ _ r0, eos r0 y) = Some x →
            Text.all is_space_or_semicolon r = true) as Hrest.
  { intros r (m2 & r3 & -> & Hm2 & Heos)%ParserFacts.star_sound_run.
    rewrite all_app, (Hsp m2 Hm2). simpl.
    destruct r3 as [|c [|]]; simpl in *; try done.
    destruct (nat_of_ascii c =? 10)%nat eqn:Hc; [|done].
    apply Nat.eqb_eq in Hc.
    unfold is_space_or_semicolon, Text.is_space. by rewrite Hc. }
  unfold opt_char in H. apply orelse_Some in H as [H|[_ H]]; [|by apply Hrest].
  unfold char in H. destruct r1 as [|c r1]; [done|].
  destruct (Ascii.eqb_spec ";" c) as [<-|]; [|done].
  simpl. by apply Hrest.
Qed.

Lemma statement_end_None s (y : option A) :
  s ≠ EmptyString → last_is is_space_or_semicolon s = false →
  statement_end s y = None.
Proof.
  intros Hs Hlast. destruct (statement_end s y) eqn:E; [|done].
  apply statement_end_all, all_last in E; [congruence|done].
Qed.

End Pieces.

Lemma statement_end_suffix_None {A} r t (y : option A) :
  r ≠ EmptyString → last_is is_space_or_semicolon r = false →
  statement_end (r +:+ t) y = None.
Proof.
  intros Hr Hlast. destruct (statement_end (r +:+ t) y) eqn:E; [|done].
  apply statement_end_all in E. rewrite all_app in E.
  apply andb_prop in E as [E _]. apply all_last in E; [congruence|done].
Qed.

Lemma statement_end_ending {A} semicolon (y : option A) :
  statement_end (ending semicolon) y = y.
Proof. by destruct semicolon, y. Qed.

(** The WHERE group on [ WHERE cond] followed by the end of the
    statement captures [cond]. *)
Lemma where_group_canonical {A} cond semicolon
    (k : string → string → option A) x :
  cond ≠ EmptyString → Text.all Text.is_dot cond = true →
  Text.head_is Text.is_space cond = false →
  last_is is_space_or_semicolon cond = false →
  (∀ m r, k m r = statement_end r (k m EmptyString)) →
  k cond EmptyString = Some x →
  ToySQLParser.where_group (" WHERE " +:+ cond +:+ ending semicolon) k
  = Some x.
Proof.
  intros Hne Hdot Hhead Hlast Hk Hx. unfold ToySQLParser.where_group.
  push_append. rewrite spaces1_one by done. simpl literal_ci.
  apply (star_greedy Text.is_space EmptyString (cond +:+ ending semicolon));
    [done|by rewrite head_app_nonempty|].
  apply lazy_plus_first; try done.
  - intros m r Hm -> Hr. rewrite Hk.
    apply statement_end_suffix_None; [done|].
    by rewrite last_is_app in Hlast.
  - by rewrite Hk, statement_end_ending.
Qed.

Lemma where_group_ending {A} semicolon (k : string → string → option A) :
  ToySQLParser.where_group (ending semicolon) k = None.
Proof. by destruct semicolon. Qed.

(** [delete_regex] on the canonical texts. *)
Lemma head_identifier_app table t :
  is_identifier table → Text.head_is Text.is_space (table +:+ t) = false.
Proof.
  intros [Hne Hword]. rewrite head_app_nonempty by done.
  destruct table as [|c t']; [done|].
  simpl in *. apply andb_prop in Hword as [Hc _]. by apply word_not_space.
Qed.

Lemma delete_regex_plain table semicolon :
  is_identifier table →
  ToySQLParser.delete_regex ("DELETE FROM " +:+ table +:+ ending semicolon)
  = Some (table, None).
Proof.
  intros Htable. unfold ToySQLParser.delete_regex.
  push_append. unfold spaces, spaces1. simpl.
  apply (star_greedy Text.is_space EmptyString (table +:+ ending semicolon));
    [done|by apply head_identifier_app|].
  destruct Htable as [Hne Hword].
  apply plus_greedy; [done..|by destruct semicolon|].
  unfold opt_group. rewrite where_group_ending. simpl.
  by rewrite statement_end_ending.
Qed.

Lemma delete_regex_where table cond semicolon :
  is_identifier table →
  cond ≠ EmptyString → Text.all Text.is_dot cond = true →
  Text.head_is Text.is_space cond = false →
  last_is is_space_or_semicolon cond = false →
  ToySQLParser.delete_regex
    ("DELETE FROM " +:+ table +:+ " WHERE " +:+ cond +:+ ending semicolon)
  = Some (table, Some cond).
Proof.
  intros Htable Hcond Hdot Hhead Hlast. unfold ToySQLParser.delete_regex.
  push_append. unfold spaces, spaces1. simpl.
  apply (star_greedy Text.is_space EmptyString
           (table +:+ " WHERE " +:+ cond +:+ ending semicolon));
    [done|by apply head_identifier_app|].
  destruct Htable as [Hne Hword].
  apply plus_greedy; [done..|].
  unfold opt_group.
  erewrite (where_group_canonical cond semicolon); [done..| |].
  - intros m r. simpl. by destruct (statement_end r _).
  - done.
Qed.

Lemma startswith_delete rest :
  PyStr.startswith (PyStr.upper ("DELETE FROM " +:+ rest)) "SELECT" = false
  ∧ PyStr.startswith (PyStr.upper ("DELETE FROM " +:+ rest)) "INSERT" = false
  ∧ PyStr.startswith (PyStr.upper ("DELETE FROM " +:+ rest)) "UPDATE" = false
  ∧ PyStr.startswith (PyStr.upper ("DELETE FROM " +:+ rest)) "DELETE" = true.
Proof. done. Qed.

End CanonicalFacts.

Module DeleteTextFacts.
Import CanonicalFacts CompileFacts.

Lemma last_is_weaken (f g : ascii → bool) s :
  (∀ c, g c = true → f c = true) →
  last_is f s = false → last_is g s = false.
Proof.
  intros Hfg. induction s as [|c s IH]; [done|]. simpl.
  destruct s; [|done]. intros Hf. destruct (g c) eqn:Hg; [|done].
  apply Hfg in Hg. congruence.
Qed.

Lemma last_identifier table :
  is_identifier table → last_is is_space_or_semicolon table = false.
Proof.
  intros [Hne Hword]. apply all_last in Hword; [|done].
  induction table as [|c t IH]; [done|]. simpl in *.
  destruct t; [|by apply IH].
  unfold is_space_or_semicolon. rewrite (word_not_space c Hword). simpl.
  destruct (Ascii.eqb_spec c ";") as [->|]; [done|done].
Qed.

Lemma last_not_space s :
  last_is is_space_or_semicolon s = false → last_is Text.is_space s = false.
Proof.
  apply last_is_weaken. intros c Hc. unfold is_space_or_semicolon.
  by rewrite Hc.
Qed.

(** The canonical texts are not changed by [strip]. *)
Lemma strip_statement body semicolon :
  body ≠ EmptyString →
  last_is is_space_or_semicolon body = false →
  Text.strip ("DELETE FROM " +:+ body +:+ ending semicolon)
  = "DELETE FROM " +:+ body +:+ ending semicolon.
Proof.
  intros Hne Hlast. apply strip_id; [done|].
  rewrite last_is_app by (by destruct body).
  destruct semicolon; simpl.
  - rewrite last_is_app by done. done.
  - rewrite append_empty_r. by apply last_not_space.
Qed.

Lemma parse_delete_plain table semicolon :
  is_identifier table →
  ToySQLParser.parse ("DELETE FROM " +:+ table +:+ ending semicolon)
  = inr (Delete (DeleteSQL.mk table None)).
Proof.
  intros Htable. unfold ToySQLParser.parse.
  rewrite strip_statement; [|by destruct Htable|by apply last_identifier].
  destruct (startswith_delete (table +:+ ending semicolon))
    as (-> & -> & -> & ->).
  by rewrite delete_regex_plain.
Qed.

Lemma parse_delete_where table cond semicolon :
  is_identifier table →
  cond ≠ EmptyString → Text.all Text.is_dot cond = true →
  Text.head_is Text.is_space cond = false →
  last_is is_space_or_semicolon cond = false →
  ToySQLParser.parse
    ("DELETE FROM " +:+ table +:+ " WHERE " +:+ cond +:+ ending semicolon)
  = match _parse_where cond with
    | inl e => inl (Raised e)
    | inr p => inr (Delete (DeleteSQL.mk table (Some p)))
    end.
Proof.
  intros Htable Hcond Hdot Hhead Hlast. unfold ToySQLParser.parse.
  set (body := table +:+ " WHERE " +:+ cond).
  assert (table +:+ " WHERE " +:+ cond +:+ ending semicolon
          = body +:+ ending semicolon) as Hbody
    by (unfold body; by rewrite !app_assoc_str).
  rewrite Hbody, (strip_statement body semicolon).
  - destruct (startswith_delete (body +:+ ending semicolon))
      as (-> & -> & -> & ->).
    rewrite <- Hbody, delete_regex_where by done.
    unfold ToySQLParser.where_lambda_of. destruct cond as [|c cond]; [done|].
    simpl. by destruct (_parse_where _).
  - unfold body. by destruct table.
  - unfold body. by rewrite !last_is_app.
Qed.

(** [filter] when no call raises. *)
Lemma filter_total (f : gmap string string → Error + bool) rows :
  Forall (λ row, ∃ b, f row = inr b) rows →
  Py.filter f rows = inr (filter (λ row, f row = inr true) rows).
Proof.
  induction 1 as [|row rows [b Hb] _ IH]; simpl; [done|].
  rewrite Hb, IH. simpl. unfold mret, result_ret. f_equal.
  rewrite filter_cons. destruct b.
  - by rewrite decide_True.
  - by rewrite decide_False by congruence.
Qed.

Lemma delete_where_outcome (tables : Tables) name p row rows :
  tables !! name = Some (row :: rows) →
  Forall (λ r : gmap string string, is_Some (r !! left p)) (row :: rows) →
  ToyDB._execute_delete (DeleteSQL.mk name (Some p)) tables
  = (inr tt,
     <[name := filter (λ r : gmap string string, call p r = inr false)
                      (row :: rows)]> tables).
Proof.
  intros Htable Hall. unfold ToyDB._execute_delete. exec_unfold.
  cbn [DeleteSQL.table DeleteSQL.where_lambda].
  rewrite Htable. cbn [Py.truthy_list negb].
  change (default [] (Some (row :: rows))) with (row :: rows).
  rewrite filter_total.
  - do 2 f_equal. apply list_filter_iff. intros r. rewrite delete_keeps_call.
    destruct (call p r) as [|[]]; simpl; split; congruence.
  - eapply Forall_impl; [done|]. intros r [v Hv]. rewrite delete_keeps_call.
    unfold call, getitem. rewrite Hv. simpl. eauto.
Qed.

End DeleteTextFacts.

(** X14.  The text [DELETE FROM table], with or without a final
    semicolon, parses to the Delete of that table without predicate;
    with [ WHERE cond] behind the table it parses to the Delete whose
    predicate is compiled from exactly [cond], or fails with the error
    of that compilation.  Here [table] is an identifier and [cond] is
    ASCII text that is not empty, holds no line feed, does not start
    with a blank and does not end with a blank or a semicolon. *)
Theorem parse_delete_canonical table cond semicolon :
  is_identifier table →
  Text.is_ascii cond = true →
  cond ≠ EmptyString → Text.all Text.is_dot cond = true →
  Text.head_is Text.is_space cond = false →
  last_is is_space_or_semicolon cond = false →
  ToySQLParser.parse ("DELETE FROM " +:+ table +:+ ending semicolon)
  = inr (Delete (DeleteSQL.mk table None))
  ∧ ToySQLParser.parse
      ("DELETE FROM " +:+ table +:+ " WHERE " +:+ cond +:+ ending semicolon)
    = match _parse_where cond with
      | inl e => inl (Raised e)
      | inr p => inr (Delete (DeleteSQL.mk table (Some p)))
      end.
Proof.
  intros. split.
  - by apply DeleteTextFacts.parse_delete_plain.
  - by apply DeleteTextFacts.parse_delete_where.
Qed.

Lemma parse_delete_canonical_witness :
  ToySQLParser.parse ("DELETE FROM " +:+ "users" +:+ ending true)
  = inr (Delete (DeleteSQL.mk "users" None))
  ∧ ToySQLParser.parse
      ("DELETE FROM " +:+ "users" +:+ " WHERE " +:+ "age < 30" +:+ ending true)
    = match _parse_where "age < 30" with
      | inl e => inl (Raised e)
      | inr p => inr (Delete (DeleteSQL.mk "users" (Some p)))
      end.
Proof.
  by apply (parse_delete_canonical "users" "age < 30" true).
Defined.

(** X15.  From text to store: executing the query [DELETE FROM table],
    with or without a final semicolon, on a store in which that table
    has rows succeeds, returns nothing and leaves the store, rows
    included, exactly as it was. *)
Theorem execute_delete_text_keeps_rows (tables : Tables) table semicolon
    row rows :
  is_identifier table →
  tables !! table = Some (row :: rows) →
  ToyDBText.execute ("DELETE FROM " +:+ table +:+ ending semicolon) tables
  = (inr None, tables).
Proof.
  intros Htable Hrows. unfold ToyDBText.execute.
  rewrite DeleteTextFacts.parse_delete_plain by done.
  cbn [ToyDB.execute]. unfold mbind, exec_bind, Exec.bind.
  by erewrite delete_without_where.
Qed.

Lemma execute_delete_text_keeps_rows_witness :
  let tables : Tables := {[ "users" := [ {[ "id" := "1" ]}; {[ "id" := "2" ]} ] ]} in
  ToyDBText.execute ("DELETE FROM " +:+ "users" +:+ ending true) tables
  = (inr None, tables).
Proof.
  intros tables.
  apply (execute_delete_text_keeps_rows tables "users" true
           {[ "id" := "1" ]} [ {[ "id" := "2" ]} ]); [by split|reflexivity].
Defined.

(** X16.  From text to store: on a table that has rows, all of which
    have the column [col], the query
    [DELETE FROM table WHERE col op lit], for [op] one of [=], [!=],
    [<], [>], succeeds and leaves in the table exactly the rows whose
    text at [col] does not compare as [op] with [lit].  Here [table] and
    [col] are identifiers and [lit] is ASCII text that is not empty,
    holds no line feed, does not start with a blank and does not end
    with a blank or a semicolon. *)
Theorem execute_delete_where_text (tables : Tables) table col op lit
    semicolon row rows :
  is_identifier table → is_identifier col →
  op ≠ OpLe → op ≠ OpGe →
  Text.is_ascii lit = true →
  lit ≠ EmptyString → Text.all Text.is_dot lit = true →
  Text.head_is Text.is_space lit = false →
  last_is is_space_or_semicolon lit = false →
  tables !! table = Some (row :: rows) →
  Forall (λ r : Row, is_Some (r !! col)) (row :: rows) →
  ToyDBText.execute
    ("DELETE FROM " +:+ table +:+ " WHERE "
     +:+ (col +:+ " " +:+ operator_text op +:+ " " +:+ lit)
     +:+ ending semicolon) tables
  = (inr None,
     <[table := filter (λ r : Row,
                          call (mkPredicate col op lit) r = inr false)
                       (row :: rows)]> tables).
Proof.
  intros Htable Hcol Hle Hge _ Hlit Hdot Hhead Hlast Hrows Hall.
  unfold ToyDBText.execute.
  rewrite DeleteTextFacts.parse_delete_where; try done.
  - unfold _parse_where.
    rewrite (CompileFacts.condition_regex_canonical col " " op " " lit) by done.
    assert (select_lambda (operator_text op) = Some op) as -> by (by destruct op).
    rewrite CanonicalFacts.strip_id;
      [|done|by apply DeleteTextFacts.last_not_space].
    cbn [ToyDB.execute]. unfold mbind, exec_bind, Exec.bind.
    by erewrite DeleteTextFacts.delete_where_outcome.
  - by destruct col, Hcol.
  - destruct Hcol as [_ Hword].
    rewrite !CanonicalFacts.all_app, Hdot.
    assert (Text.all Text.is_dot col = true) as ->.
    { clear -Hword. induction col as [|c col IH]; [done|]. simpl in *.
      apply andb_prop in Hword as [Hc Hw]. rewrite IH by done.
      rewrite andb_true_r. clear -Hc.
      destruct c as [[] [] [] [] [] [] [] []]; by vm_compute in Hc |- *. }
    by destruct op.
  - destruct Hcol as [Hne Hword]. rewrite CompileFacts.head_app_nonempty by done.
    destruct col as [|c col]; [done|]. simpl in *.
    apply andb_prop in Hword as [Hc _]. by apply word_not_space.
  - rewrite !CanonicalFacts.last_is_app; try done; by destruct op.
Qed.

Lemma execute_delete_where_text_witness :
  let bob : Row := {[ "name" := "Bob"; "age" := "25" ]} in
  let eve : Row := {[ "name" := "Eve"; "age" := "35" ]} in
  let tables : Tables := {[ "users" := [bob; eve] ]} in
  ToyDBText.execute
    ("DELETE FROM " +:+ "users" +:+ " WHERE "
     +:+ ("age" +:+ " " +:+ operator_text OpLt +:+ " " +:+ "30")
     +:+ ending true) tables
  = (inr None,
     <["users" := filter (λ r : Row,
                            call (mkPredicate "age" OpLt "30") r = inr false)
                         [bob; eve]]> tables).
Proof.
  intros bob eve tables.
  apply (execute_delete_where_text tables "users" "age" OpLt "30" true bob [eve]);
    try done; try (by split).
  repeat constructor; by eexists.
Defined.

Module SplitFacts.

Lemma split_nonempty sep s : PyStr.split sep s ≠ [].
Proof.
  destruct s as [|c s]; simpl; [done|].
  destruct (Ascii.eqb c sep); [done|]. by destruct (PyStr.split sep s).
Qed.

(** [split] gives one piece more than there are separators. *)
Lemma split_length sep s :
  length (PyStr.split sep s) = S (occurrences sep s).
Proof.
  induction s as [|c s IH]; simpl; [done|].
  destruct (Ascii.eqb c sep); simpl; [by rewrite IH|].
  pose proof (split_nonempty sep s).
  destruct (PyStr.split sep s); [done|]. by rewrite <- IH.
Qed.

Lemma split_none sep s : occurrences sep s = 0 → PyStr.split sep s = [s].
Proof.
  induction s as [|c s IH]; simpl; [done|].
  destruct (Ascii.eqb c sep); [done|]. simpl. intros H. by rewrite IH.
Qed.

Lemma split_once sep k v :
  occurrences sep k = 0 → occurrences sep v = 0 →
  PyStr.split sep (k +:+ String sep v) = [k; v].
Proof.
  intros Hk Hv. induction k as [|c k IH].
  - change (EmptyString +:+ String sep v) with (String sep v). simpl.
    by rewrite Ascii.eqb_refl, split_none.
  - change (String c k +:+ String sep v) with (String c (k +:+ String sep v)).
    simpl in *. destruct (Ascii.eqb c sep); [done|]. by rewrite IH.
Qed.

End SplitFacts.

(** X17.  The single-split policy of UPDATE assignments, on ASCII
    text.  An assignment [k=v] in which neither side holds an equals
    sign gives the pair of [k] and [v], each stripped of the blanks
    around it; a text with no equals sign, or with more than one,
    raises the unpacking error. *)
Theorem assignment_needs_one_equals k v a :
  Text.is_ascii k = true → Text.is_ascii v = true →
  Text.is_ascii a = true →
  occurrences "=" k = 0 → occurrences "=" v = 0 →
  occurrences "=" a ≠ 1 →
  ToySQLParser.assignment_pair (k +:+ String "=" v)
  = inr (Text.strip k, Text.strip v)
  ∧ ToySQLParser.assignment_pair a = inl UnpackMismatch.
Proof.
  intros _ _ _ Hk Hv Ha. unfold ToySQLParser.assignment_pair. split.
  - by rewrite SplitFacts.split_once.
  - pose proof (SplitFacts.split_length "=" a) as Hlen.
    destruct (PyStr.split "=" a) as [|x [|y [|z l]]]; try done.
    simpl in Hlen. lia.
Qed.

Lemma assignment_needs_one_equals_witness :
  ToySQLParser.assignment_pair (" age " +:+ String "=" " 40")
  = inr (Text.strip " age ", Text.strip " 40")
  ∧ ToySQLParser.assignment_pair "note=a=b" = inl UnpackMismatch.
Proof.
  apply (assignment_needs_one_equals " age " " 40" "note=a=b");
    [reflexivity..|]. vm_compute. lia.
Defined.

Module SelectTextFacts.
Import ReFacts ReMore CompileFacts CanonicalFacts.

Section Steps.
Context {A : Type}.

Lemma literal_ci_app l s (k : string → option A) :
  literal_ci l (l +:+ s) k = k s.
Proof.
  induction l as [|a l IH]; [by destruct s|].
  change (String a l +:+ s) with (String a (l +:+ s)). simpl.
  by rewrite Ascii.eqb_refl.
Qed.

Lemma spaces1_blank s (k : string → option A) :
  Text.head_is Text.is_space s = false → spaces1 (" " +:+ s) k = k s.
Proof. apply spaces1_one. Qed.

Lemma spaces1_head s (k : string → option A) :
  Text.head_is Text.is_space s = false → spaces1 s k = None.
Proof.
  unfold spaces1. destruct s as [|c s]; simpl; [done|]. by intros ->.
Qed.

(** A greedy repetition gives back what it took beyond [m0] when the
    rest of the pattern fails at every place beyond [m0]. *)
Lemma star_gives_back cls m0 r0 (k : string → string → option A) x :
  Text.all cls m0 = true →
  (∀ m c r r', r0 = String c r → Re.reach cls r r' → k m r' = None) →
  k m0 r0 = Some x →
  Re.star cls (m0 +:+ r0) k = Some x.
Proof.
  revert k. induction m0 as [|c m0 IH]; intros k Hall Hfail Hk.
  - change (EmptyString +:+ r0) with r0.
    destruct r0 as [|c r]; simpl; [done|].
    destruct (cls c); [|done].
    rewrite star_None; [done|]. intros m r' Hr'. by eapply Hfail.
  - change (String c m0 +:+ r0) with (String c (m0 +:+ r0)).
    apply andb_prop in Hall as [Hc Hall]. simpl. rewrite Hc.
    rewrite (IH (λ m r, k (String c m) r)); [done..| |done].
    intros m c' r r' -> Hr'. by eapply Hfail.
Qed.

Lemma plus_gives_back cls m0 r0 (k : string → string → option A) x :
  m0 ≠ EmptyString → Text.all cls m0 = true →
  (∀ m c r r', r0 = String c r → Re.reach cls r r' → k m r' = None) →
  k m0 r0 = Some x →
  Re.plus cls (m0 +:+ r0) k = Some x.
Proof.
  destruct m0 as [|c m0]; [done|]. intros _ Hall Hfail Hk.
  change (String c m0 +:+ r0) with (String c (m0 +:+ r0)).
  apply andb_prop in Hall as [Hc Hall]. simpl. rewrite Hc.
  apply star_gives_back; [done| |done].
  intros m c' r r' -> Hr'. by eapply Hfail.
Qed.

Lemma literal_ci_suffix l s (k : string → option A) x :
  literal_ci l s k = Some x → ∃ p r, s = p +:+ r ∧ k r = Some x.
Proof.
  revert s. induction l as [|a l IH]; intros s; simpl.
  - intros H. by exists EmptyString, s.
  - destruct s as [|b s]; [done|]. destruct (Ascii.eqb _ _); [|done].
    intros (p & r & -> & H)%IH. by exists (String b p), r.
Qed.

End Steps.

Lemma reach_cons_inv cls c s r :
  Re.reach cls (String c s) r →
  r = String c s ∨ (cls c = true ∧ Re.reach cls s r).
Proof. inversion 1; subst; auto. Qed.

Lemma reach_suffix cls s r : Re.reach cls s r → ∃ p, s = p +:+ r.
Proof.
  induction 1 as [s|c s r Hc _ [p ->]].
  - by exists EmptyString.
  - by exists (String c p).
Qed.

Lemma no_space_suffix p r :
  Text.all no_space (p +:+ r) = true →
  Text.head_is Text.is_space r = false.
Proof.
  rewrite all_app. intros [_ Hr]%andb_prop.
  destruct r as [|c r]; [done|]. simpl in *.
  apply andb_prop in Hr as [Hc _]. unfold no_space in Hc.
  by destruct (Text.is_space c).
Qed.

Lemma identifier_no_space table semicolon :
  is_identifier table →
  Text.all no_space (table +:+ ending semicolon) = true.
Proof.
  intros [_ Hword]. rewrite all_app.
  assert (Text.all no_space table = true) as ->.
  { induction table as [|c t IH]; [done|]. simpl in *.
    apply andb_prop in Hword as [Hc Ht]. rewrite IH by done.
    unfold no_space. by rewrite (word_not_space c Hc). }
  by destruct semicolon.
Qed.

(** [select_regex] on [SELECT * FROM table]. *)
Lemma select_regex_star table semicolon :
  is_identifier table →
  ToySQLParser.select_regex
    ("SELECT" +:+ " " +:+ "*" +:+ " " +:+ "FROM" +:+ " "
     +:+ table +:+ ending semicolon)
  = Some ("*", table, None, None).
Proof.
  intros Htable. unfold ToySQLParser.select_regex.
  pose proof (identifier_no_space table semicolon Htable) as Hns.
  pose proof (no_space_suffix EmptyString _ Hns) as Hhead.
  rewrite spaces_none by done. rewrite literal_ci_app.
  rewrite spaces1_blank by done.
  apply plus_gives_back; [done..| |].
  - (* beyond the star the rest of the pattern finds no [ FROM ] *)
    intros m c r r' [= <- <-] Hr'. push_append.
    do 4 (apply reach_cons_inv in Hr' as [->|[_ Hr']];
          [by apply spaces1_head|]).
    apply reach_cons_inv in Hr' as [->|[_ Hr']].
    + (* at [ table]: FROM may match inside the name, but no blank
         follows it *)
      rewrite (spaces1_one (table +:+ ending semicolon)) by done.
      destruct (literal_ci "FROM" _ _) eqn:E; [|done].
      apply literal_ci_suffix in E as (pre & post & Hpost & E).
      rewrite spaces1_head in E; [done|].
      apply (no_space_suffix pre). by rewrite <- Hpost.
    + apply reach_suffix in Hr' as [pre Hpre]. apply spaces1_head.
      apply (no_space_suffix pre). by rewrite <- Hpre.
  - rewrite spaces1_blank by done. rewrite literal_ci_app.
    rewrite spaces1_blank by done.
    destruct Htable as [Hne Hword].
    apply plus_greedy; [done..|by destruct semicolon|].
    unfold opt_group. rewrite where_group_ending. simpl Re.orelse.
    destruct semicolon; reflexivity.
Qed.

Lemma strip_select table semicolon :
  is_identifier table →
  Text.strip ("SELECT * FROM " +:+ table +:+ ending semicolon)
  = "SELECT * FROM " +:+ table +:+ ending semicolon.
Proof.
  intros Htable. apply strip_id; [done|].
  rewrite last_is_app by (by destruct table, Htable).
  destruct semicolon; simpl.
  - by rewrite last_is_app.
  - rewrite append_empty_r.
    by apply DeleteTextFacts.last_not_space, DeleteTextFacts.last_identifier.
Qed.

Lemma parse_select_star table semicolon :
  is_identifier table →
  ToySQLParser.parse ("SELECT * FROM " +:+ table +:+ ending semicolon)
  = inr (Select (SelectSQL.mk ["*"] table None None)).
Proof.
  intros Htable. unfold ToySQLParser.parse. rewrite strip_select by done.
  change (PyStr.startswith
            (PyStr.upper ("SELECT * FROM " +:+ table +:+ ending semicolon))
            "SELECT") with true.
  cbn iota.
  change ("SELECT * FROM " +:+ table +:+ ending semicolon)
    with ("SELECT" +:+ " " +:+ "*" +:+ " " +:+ "FROM" +:+ " "
          +:+ table +:+ ending semicolon).
  by rewrite select_regex_star.
Qed.

End SelectTextFacts.

(** X18.  From text to rows: the query [SELECT * FROM table], with or
    without a final semicolon, returns the rows of the table in their
    order and leaves the store alone when the table has rows, and
    fails with the table-not-found error when the store has no such
    table or the table has no rows.  Here [table] is an identifier. *)
Theorem execute_select_star_text (tables : Tables) table semicolon :
  is_identifier table →
  ToyDBText.execute ("SELECT * FROM " +:+ table +:+ ending semicolon) tables
  = match tables !! table with
    | Some (row :: rows) => (inr (Some (row :: rows)), tables)
    | _ => (inl (Raised (TableNotFound table)), tables)
    end.
Proof.
  intros Htable. unfold ToyDBText.execute.
  rewrite SelectTextFacts.parse_select_star by done.
  cbn [ToyDB.execute]. unfold mbind, exec_bind, Exec.bind.
  destruct (tables !! table) as [[|row rows]|] eqn:Hrows.
  - by rewrite select_not_truthy by (simpl; by rewrite Hrows).
  - by erewrite SelectFacts.select_plain.
  - by rewrite select_not_truthy by (simpl; by rewrite Hrows).
Qed.

Lemma execute_select_star_text_witness :
  let tables : Tables := {[ "users" := [ {[ "id" := "1" ]} ] ]} in
  ToyDBText.execute ("SELECT * FROM " +:+ "users" +:+ ending true) tables
  = match tables !! "users" with
    | Some (row :: rows) => (inr (Some (row :: rows)), tables)
    | _ => (inl (Raised (TableNotFound "users")), tables)
    end.
Proof.
  intros tables. apply (execute_select_star_text tables "users" true).
  by split.
Defined.

(** The demonstration at the end of [tsql.py], run on the store that
    [create_table("users", ...)] leaves. *)
Example demonstration_script :
  let alice age : Row := {[ "id" := "1"; "name" := "'Alice'"; "age" := age ]} in
  let bob : Row := {[ "id" := "2"; "name" := "'Bob'"; "age" := "25" ]} in
  let charlie : Row := {[ "id" := "3"; "name" := "'Charlie'"; "age" := "35" ]} in
  ToyDBText.run
    ["INSERT INTO users (id, name, age) VALUES (1, 'Alice', 30);";
     "INSERT INTO users (id, name, age) VALUES (2, 'Bob', 25);";
     "INSERT INTO users (id, name, age) VALUES (3, 'Charlie', 35);";
     "SELECT * FROM users;";
     "SELECT * FROM users WHERE age > 30 ORDER BY name;";
     "UPDATE users SET age=40 WHERE id=1;";
     "SELECT * FROM users;";
     "DELETE FROM users WHERE age < 30;";
     "SELECT * FROM users;"]
    (ToyDB.create_table "users" ["id"; "name"; "age"] ∅).2
  = (inr [None; None; None;
          Some [alice "30"; bob; charlie];
          Some [charlie];
          None;
          Some [alice "40"; bob; charlie];
          None;
          Some [alice "40"; charlie]],
     {[ "users" := [alice "40"; charlie] ]}).
Proof. vm_compute. reflexivity. Qed.
